(** * Capture worker: change detection, tagging, PII scan and job pipeline

    A shallow embedding of [src/workers/capture-worker.ts] (class
    [CaptureWorker]) together with the properties of its capture pipeline.

    Conventions of the embedding.
    - A JavaScript string is a [string]: a sequence of code units, each below
      256 (the Latin-1 range).  [toLowerCase], [\s], [\d], [\w] and [\b] are
      given their ECMAScript meaning on that range.
    - A [Buffer] is a list of bytes.
    - An [async] method is a function from the state of the outside world
      (database tables, browser pages, console) to a result and a new state.
      The result is either a value or a thrown error; the replies of the
      collaborators (Playwright, sharp, tesseract, S3, Prisma) are read from
      a [World] record, so that every awaited call may succeed or throw.
    - The digests of [crypto.createHash] are the operations of the class
      [Digest]. *)

From Stdlib Require Import QArith String Ascii.
From stdpp Require Import base strings list gmap pretty.


(** ** JavaScript strings *)

Definition chars : string → list ascii := list_ascii_of_string.
Definition of_chars : list ascii → string := string_of_list_ascii.

(** [needle] is a prefix of [hay]. *)
Fixpoint starts_with (needle hay : list ascii) : bool :=
  match needle, hay with
  | [], _ => true
  | _ :: _, [] => false
  | a :: needle', b :: hay' =>
      if decide (a = b) then starts_with needle' hay' else false
  end.

(** Search of [needle] at every position of [hay], left to right. *)
Fixpoint index_in (needle hay : list ascii) : bool :=
  starts_with needle hay ||
  match hay with
  | [] => false
  | _ :: hay' => index_in needle hay'
  end.

(** [hay.includes(needle)] *)
Definition includes (hay needle : string) : bool :=
  index_in (chars needle) (chars hay).

(** Lower-casing of one code unit of the Latin-1 range: [A-Z] and the
    accented capitals U+00C0..U+00DE, the multiplication sign U+00D7
    excepted, move up by 32; every other code unit is its own image. *)
Definition lower_char (c : ascii) : ascii :=
  let n := N_of_ascii c in
  if ((65 <=? n) && (n <=? 90))%N
     || ((192 <=? n) && (n <=? 222) && negb (n =? 215))%N
  then ascii_of_N (n + 32) else c.

(** [s.toLowerCase()] *)
Definition toLowerCase (s : string) : string :=
  of_chars (map lower_char (chars s)).



(** ** Tag classifier: [generateAITags] *)

(** A [Set<string>] keeps its members in insertion order; [add] of a member
    already present changes nothing. *)
Definition set_add (x : string) (tags : list string) : list string :=
  if decide (x ∈ tags) then tags else tags ++ [x].

(** [ocrText || ''] *)
Definition or_empty (ocrText : option string) : string :=
  match ocrText with
  | None => ""
  | Some t => t
  end.

Definition generateAITags (url : string) (ocrText : option string) : list string :=
  let text := or_empty ocrText in
  let urlLower := toLowerCase url in
  let tags := [] in
  let tags :=
    if includes urlLower "checkout" || includes (toLowerCase text) "checkout"
    then set_add "checkout" tags else tags in
  let tags :=
    if includes urlLower "payment" || includes (toLowerCase text) "payment"
    then set_add "payment" tags else tags in
  let tags :=
    if includes urlLower "ticket" || includes (toLowerCase text) "ticket"
    then set_add "ticket" tags else tags in
  let tags :=
    if includes urlLower "event" || includes (toLowerCase text) "event"
    then set_add "event" tags else tags in
  let tags :=
    if includes urlLower "room" || includes (toLowerCase text) "room"
    then set_add "accommodation" tags else tags in
  tags.

(** The fixed vocabulary of the classifier, as the spec describes it: each
    keyword with the label it contributes. *)
Definition vocabulary : list (string * string) :=
  [ ("checkout", "checkout"); ("payment", "payment"); ("ticket", "ticket");
    ("event", "event"); ("room", "accommodation") ].

(** ** PII scanner: the regular expressions of [detectAndBlurPII] *)

Definition code (c : ascii) : N := N_of_ascii c.

Definition in_range (lo hi : N) (c : ascii) : bool :=
  ((lo <=? code c) && (code c <=? hi))%N.

Definition is_char (x c : ascii) : bool := Ascii.eqb x c.

(** [\d] *)
Definition is_digit (c : ascii) : bool := in_range 48 57 c.

(** [A-Z] and [a-z] *)
Definition is_upper (c : ascii) : bool := in_range 65 90 c.
Definition is_lower (c : ascii) : bool := in_range 97 122 c.

(** [\w], the class behind [\b]: [A-Za-z0-9_] *)
Definition is_word (c : ascii) : bool :=
  is_upper c || is_lower c || is_digit c || is_char "_" c.

(** [\s] below 256: TAB, LF, VT, FF, CR, space and the no-break space *)
Definition is_space (c : ascii) : bool :=
  in_range 9 13 c || (code c =? 32)%N || (code c =? 160)%N.

(** [[\s-]] *)
Definition is_sep (c : ascii) : bool := is_space c || is_char "-" c.

(** [[A-Za-z0-9._%+-]] *)
Definition is_email_local (c : ascii) : bool :=
  is_upper c || is_lower c || is_digit c
  || is_char "." c || is_char "_" c || is_char "%" c || is_char "+" c
  || is_char "-" c.

(** [[A-Za-z0-9.-]] *)
Definition is_email_domain (c : ascii) : bool :=
  is_upper c || is_lower c || is_digit c || is_char "." c || is_char "-" c.

(** [[A-Z|a-z]]: the bar is a member of the class *)
Definition is_email_tld (c : ascii) : bool :=
  is_upper c || is_char "|" c || is_lower c.

(** The patterns of the scanner are sequences of two kinds of item: the
    assertion [\b] and a quantified character class [cls{lo,hi}] ([hi]
    absent for an open upper bound). *)
Inductive item : Type :=
  | WordBoundary
  | Repeat (cls : ascii → bool) (lo : nat) (hi : option nat).

Definition one (cls : ascii → bool) : item := Repeat cls 1 (Some 1).
Definition optional (cls : ascii → bool) : item := Repeat cls 0 (Some 1).
Definition times (n : nat) (cls : ascii → bool) : item := Repeat cls n (Some n).
Definition at_least (n : nat) (cls : ascii → bool) : item := Repeat cls n None.

(** [/\b\d{3}-\d{2}-\d{4}\b/] *)
Definition ssn_pattern : list item :=
  [ WordBoundary; times 3 is_digit; one (is_char "-"); times 2 is_digit;
    one (is_char "-"); times 4 is_digit; WordBoundary ].

(** [/\b\d{4}[\s-]?\d{4}[\s-]?\d{4}[\s-]?\d{4}\b/] *)
Definition card_pattern : list item :=
  [ WordBoundary; times 4 is_digit; optional is_sep; times 4 is_digit;
    optional is_sep; times 4 is_digit; optional is_sep; times 4 is_digit;
    WordBoundary ].

(** [/\b[A-Za-z0-9._%+-]+@[A-Za-z0-9.-]+\.[A-Z|a-z]{2,}\b/] *)
Definition email_pattern : list item :=
  [ WordBoundary; at_least 1 is_email_local; one (is_char "@");
    at_least 1 is_email_domain; one (is_char "."); at_least 2 is_email_tld;
    WordBoundary ].

(** [/\b\d{3}[\s-]?\d{3}[\s-]?\d{4}\b/] *)
Definition phone_pattern : list item :=
  [ WordBoundary; times 3 is_digit; optional is_sep; times 3 is_digit;
    optional is_sep; times 4 is_digit; WordBoundary ].

Definition piiPatterns : list (list item) :=
  [ ssn_pattern; card_pattern; email_pattern; phone_pattern ].

(** *** The matcher: backtracking over the items *)

Definition word_at (c : option ascii) : bool :=
  match c with
  | Some c => is_word c
  | None => false
  end.

(** [\b] holds between [prev] and [next] when exactly one is a word
    character; the ends of the text count as non-word. *)
Definition at_boundary (prev next : option ascii) : bool :=
  xorb (word_at prev) (word_at next).

(** Every way for a run of [cls] to consume a prefix of [s], shortest
    first: the number of code units consumed, the code unit that then
    precedes the rest, and the rest. *)
Fixpoint runs (cls : ascii → bool) (prev : option ascii) (s : list ascii)
  : list (nat * option ascii * list ascii) :=
  (0, prev, s) ::
  match s with
  | c :: t =>
      if cls c
      then List.map (λ x, (S x.1.1, x.1.2, x.2)) (runs cls (Some c) t)
      else []
  | [] => []
  end.

Definition within (lo : nat) (hi : option nat) (k : nat) : bool :=
  (lo <=? k) && match hi with Some h => k <=? h | None => true end.

(** The continuations of one item at a position, longest run first (the
    quantifiers are greedy). *)
Definition item_ends (it : item) (prev : option ascii) (s : list ascii)
  : list (option ascii * list ascii) :=
  match it with
  | WordBoundary => if at_boundary prev (head s) then [(prev, s)] else []
  | Repeat cls lo hi =>
      List.map (λ x, (x.1.2, x.2))
        (List.filter (λ x, within lo hi x.1.1) (rev (runs cls prev s)))
  end.

(** The items match a prefix of [s], [prev] being the code unit before. *)
Fixpoint match_items (items : list item) (prev : option ascii)
  (s : list ascii) : bool :=
  match items with
  | [] => true
  | it :: rest =>
      existsb (λ x, match_items rest x.1 x.2) (item_ends it prev s)
  end.

(** The match is tried at every position, the end of the text included. *)
Fixpoint search (items : list item) (prev : option ascii) (s : list ascii)
  : bool :=
  match_items items prev s ||
  match s with
  | c :: t => search items (Some c) t
  | [] => false
  end.

(** [pattern.test(text)] for a pattern without flags *)
Definition test (pattern : list item) (text : string) : bool :=
  search pattern None (chars text).

(** [piiPatterns.some(pattern => pattern.test(text))] *)
Definition hasPII (text : string) : bool :=
  existsb (λ pattern, test pattern text) piiPatterns.

(** *** What it means for a pattern to match, stated on the text *)

(** One item matches the part [mid] of a text [before ++ mid ++ after]. *)
Definition item_matches (it : item) (before mid after : list ascii) : Prop :=
  match it with
  | WordBoundary =>
      mid = [] ∧ word_at (last before) ≠ word_at (head after)
  | Repeat cls lo hi =>
      Forall (λ c, cls c = true) mid ∧ lo ≤ length mid
      ∧ ∀ h, hi = Some h → length mid ≤ h
  end.

Fixpoint items_match (items : list item) (before mid after : list ascii)
  : Prop :=
  match items with
  | [] => mid = []
  | it :: rest =>
      ∃ m1 m2, mid = m1 ++ m2
        ∧ item_matches it before m1 (m2 ++ after)
        ∧ items_match rest (before ++ m1) m2 after
  end.

Definition pattern_matches (pattern : list item) (text : string) : Prop :=
  ∃ before mid after,
    chars text = before ++ mid ++ after ∧ items_match pattern before mid after.

Definition all_in (cls : ascii → bool) (s : string) : Prop :=
  Forall (λ c, cls c = true) (chars s).

(** An email-shaped string inside a text: a local part, [@], a domain, a
    dot and a top-level part of two or more letters, standing as a word of
    its own (a word boundary before the local part and after the top-level
    part). *)
Definition email_shaped_in (text : string) : Prop :=
  ∃ pre loc dom tld post : string,
    text = pre +:+ loc +:+ "@" +:+ dom +:+ "." +:+ tld +:+ post
    ∧ loc ≠ "" ∧ all_in is_email_local loc
    ∧ dom ≠ "" ∧ all_in is_email_domain dom
    ∧ 2 ≤ String.length tld ∧ all_in is_email_tld tld
    ∧ word_at (last (chars pre)) ≠ word_at (head (chars loc))
    ∧ word_at (last (chars tld)) ≠ word_at (head (chars post)).

(** ** Data model *)

Definition Buffer : Type := list Byte.byte.

(** [crypto.createHash(...).update(...).digest('hex')]: deterministic
    functions of their input, otherwise left open. *)
Class Digest : Type := {
  sha256_hex : Buffer → string;
  md5_hex : Buffer → string;
  sha256_hex_text : string → string
}.

Inductive Breakpoint : Type := desktop | mobile.

Record CaptureJob : Type := {
  job_id : string;
  url : string;
  breakpoint : Breakpoint;
  width : nat;
  height : nat;
  withContent : bool;
  priority : nat;
  siteId : string;
  screenId : string
}.

Inductive Status : Type := pending | processing | captured | failed.

(** A row of [screen], with the columns the worker writes. *)
Record Screen : Type := {
  status : Status;
  ocrText : option string;
  aiTags : list string;
  piiBlur : bool;
  lastSeenAt : option N
}.

(** A row of [screenFile]; a URL is absent when the uploader left its key
    undefined. *)
Record ScreenFile : Type := {
  file_id : nat;
  file_screenId : string;
  webpUrl : option string;
  pngUrl : option string;
  thumbUrl : option string;
  file_sha256 : string;
  file_imgHash : string
}.

(** A row of [capture]. *)
Record Capture : Type := {
  capture_id : nat;
  capture_screenId : string;
  etag : option string;
  lastModified : option string;
  domHash : string;
  imgHash : string;
  diffScore : Q;
  changed : bool
}.

Inductive PageEvent : Type := Opened (page : nat) | Closed (page : nat).

(** The state a job runs in.  The tables [screenFiles] and [captures] hold
    their rows newest first: [createdAt] is the time of insertion.
    [pages] is the trace of browser pages opened and closed, newest first. *)
Record St : Type := {
  initialized : bool;
  screens : gmap string Screen;
  screenFiles : list ScreenFile;
  captures : list Capture;
  next_id : nat;
  next_page : nat;
  pages : list PageEvent;
  console : list string
}.

Inductive Res (A : Type) : Type :=
  | Ok (a : A)
  | Throw (error : string).
Arguments Ok {A} a.
Arguments Throw {A} error.

(** The replies of one tesseract run. *)
Record OcrReplies : Type := {
  createWorker : Res unit;
  recognize : Buffer → Res string;
  terminate : Res unit
}.

(** The replies of the collaborators during one job, one field per awaited
    call, and the environment variables read. *)
Record World : Type := {
  db_mark_processing : Res unit;
  browser_newPage : Res unit;
  page_setViewportSize : Res unit;
  page_goto : Res unit;
  page_query : string → Res bool;
  element_click : string → Res unit;
  page_waitForTimeout : nat → Res unit;
  page_evaluate_scroll : Res unit;
  page_screenshot : Res Buffer;
  etag_response : Res (gmap string string);
  lastModified_response : Res (gmap string string);
  page_content : Res string;
  sharp_webp : Buffer → Res Buffer;
  sharp_thumb : Buffer → Res Buffer;
  ocr_text : OcrReplies;
  ocr_pii : OcrReplies;
  s3_send : string → string → Buffer → string → Res unit;
  env_S3_BUCKET : string;
  env_CDN_URL : string;
  db_create_screenFile : Res unit;
  db_find_capture : Res unit;
  db_create_capture : Res unit;
  db_mark_captured : Res unit;
  clock_now : N;
  page_close : Res unit;
  db_mark_failed : Res unit
}.

(** ** Asynchronous computations *)

Definition M (A : Type) : Type := St → Res A * St.

Definition ret {A : Type} (a : A) : M A := λ s, (Ok a, s).

Definition throw {A : Type} (error : string) : M A := λ s, (Throw error, s).

Definition bind {A B : Type} (m : M A) (k : A → M B) : M B :=
  λ s, match m s with
       | (Ok a, s1) => k a s1
       | (Throw error, s1) => (Throw error, s1)
       end.

Notation "'await' x := m 'in' k" := (bind m (λ x, k))
  (at level 10, x name, m at level 100, k at level 200, only parsing).

(** [try { m } catch (error) { handler error }] *)
Definition try_catch {A : Type} (m : M A) (handler : string → M A) : M A :=
  λ s, match m s with
       | (Ok a, s1) => (Ok a, s1)
       | (Throw error, s1) => handler error s1
       end.

(** [try { m } finally { cleanup }] *)
Definition try_finally {A : Type} (m : M A) (cleanup : M unit) : M A :=
  λ s, match m s with
       | (r, s1) =>
           match cleanup s1 with
           | (Ok _, s2) => (r, s2)
           | (Throw error, s2) => (Throw error, s2)
           end
       end.

(** An awaited call whose reply comes from the world and leaves the state
    alone. *)
Definition ask {A : Type} (reply : Res A) : M A := λ s, (reply, s).

Definition console_write (line : string) : M unit :=
  λ s, (Ok tt,
        {| initialized := initialized s; screens := screens s;
           screenFiles := screenFiles s; captures := captures s;
           next_id := next_id s; next_page := next_page s;
           pages := pages s; console := line :: console s |}).

Definition with_pages (s : St) (next : nat) (trace : list PageEvent) : St :=
  {| initialized := initialized s; screens := screens s;
     screenFiles := screenFiles s; captures := captures s;
     next_id := next_id s; next_page := next; pages := trace;
     console := console s |}.

(** [this.browser.newPage()] *)
Definition newPage (w : World) : M nat :=
  λ s, match browser_newPage w with
       | Ok _ =>
           (Ok (next_page s),
            with_pages s (S (next_page s)) (Opened (next_page s) :: pages s))
       | Throw error => (Throw error, s)
       end.

(** [page.close()] *)
Definition closePage (w : World) (page : nat) : M unit :=
  λ s, match page_close w with
       | Ok _ => (Ok tt, with_pages s (next_page s) (Closed page :: pages s))
       | Throw error => (Throw error, s)
       end.

Definition with_screens (s : St) (t : gmap string Screen) : St :=
  {| initialized := initialized s; screens := t;
     screenFiles := screenFiles s; captures := captures s;
     next_id := next_id s; next_page := next_page s;
     pages := pages s; console := console s |}.

(** [prisma.screen.update({ where: { id }, data })]: throws when the
    database does, or when no row has this id. *)
Definition screen_update (reply : Res unit) (key : string)
  (data : Screen → Screen) : M unit :=
  λ s, match reply with
       | Ok _ =>
           match screens s !! key with
           | Some row => (Ok tt, with_screens s (<[key := data row]> (screens s)))
           | None => (Throw "Record to update not found", s)
           end
       | Throw error => (Throw error, s)
       end.

Definition set_status (v : Status) (row : Screen) : Screen :=
  {| status := v; ocrText := ocrText row; aiTags := aiTags row;
     piiBlur := piiBlur row; lastSeenAt := lastSeenAt row |}.

(** [prisma.screenFile.create({ data })] *)
Definition screenFile_create (reply : Res unit) (data : nat → ScreenFile)
  : M ScreenFile :=
  λ s, match reply with
       | Ok _ =>
           (Ok (data (next_id s)),
            {| initialized := initialized s; screens := screens s;
               screenFiles := data (next_id s) :: screenFiles s;
               captures := captures s; next_id := S (next_id s);
               next_page := next_page s; pages := pages s;
               console := console s |})
       | Throw error => (Throw error, s)
       end.

(** [prisma.capture.create({ data })] *)
Definition capture_create (reply : Res unit) (data : nat → Capture)
  : M Capture :=
  λ s, match reply with
       | Ok _ =>
           (Ok (data (next_id s)),
            {| initialized := initialized s; screens := screens s;
               screenFiles := screenFiles s;
               captures := data (next_id s) :: captures s;
               next_id := S (next_id s); next_page := next_page s;
               pages := pages s; console := console s |})
       | Throw error => (Throw error, s)
       end.

(** The most recent row of [rows] for a screen. *)
Definition latest_capture (key : string) (rows : list Capture)
  : option Capture :=
  List.find (λ c, String.eqb (capture_screenId c) key) rows.

(** [prisma.capture.findFirst({ where: { screenId },
    orderBy: { createdAt: 'desc' } })] *)
Definition capture_findFirst (reply : Res unit) (key : string)
  : M (option Capture) :=
  λ s, match reply with
       | Ok _ => (Ok (latest_capture key (captures s)), s)
       | Throw error => (Throw error, s)
       end.

(** ** The methods of [CaptureWorker] *)

(** The double quote, for the selectors that contain one. *)
Definition dq : string := String (ascii_of_nat 34) "".

Definition cookieSelectors : list string :=
  [ "[data-testid=" +:+ dq +:+ "cookie-banner" +:+ dq +:+ "]";
    ".cookie-banner";
    "#cookie-banner";
    "[aria-label*=" +:+ dq +:+ "cookie" +:+ dq +:+ "]";
    "button:has-text(" +:+ dq +:+ "Accept" +:+ dq +:+ ")";
    "button:has-text(" +:+ dq +:+ "OK" +:+ dq +:+ ")";
    "button:has-text(" +:+ dq +:+ "Got it" +:+ dq +:+ ")" ].

(** The [for] loop of [handleCookieBanners]: the first selector that finds
    an element is clicked and ends the loop; an error inside one round is
    caught and the loop goes on. *)
Fixpoint cookie_loop (w : World) (selectors : list string) : M unit :=
  match selectors with
  | [] => ret tt
  | selector :: rest =>
      await clicked :=
        try_catch
          (await element := ask (page_query w selector) in
           if (element : bool)
           then await _ := ask (element_click w selector) in
                await _ := ask (page_waitForTimeout w 1000) in
                ret true
           else ret false)
          (λ _, ret false) in
      if (clicked : bool) then ret tt else cookie_loop w rest
  end.

Definition handleCookieBanners (w : World) (page : nat) : M unit :=
  try_catch (cookie_loop w cookieSelectors) (λ _, ret tt).

Definition scrollToLoadContent (w : World) (page : nat) : M unit :=
  try_catch
    (await _ := ask (page_evaluate_scroll w) in
     await _ := ask (page_waitForTimeout w 1000) in
     await _ := ask (page_evaluate_scroll w) in
     await _ := ask (page_waitForTimeout w 500) in
     ret tt)
    (λ _, ret tt).

(** [headers[name] || null]: an empty header value is falsy. *)
Definition header_or_null (headers : gmap string string) (name : string)
  : option string :=
  match headers !! name with
  | Some "" => None
  | Some v => Some v
  | None => None
  end.

Definition getEtag (w : World) (page : nat) : M (option string) :=
  try_catch
    (await response := ask (etag_response w) in
     ret (header_or_null response "etag"))
    (λ _, ret None).

Definition getLastModified (w : World) (page : nat) : M (option string) :=
  try_catch
    (await response := ask (lastModified_response w) in
     ret (header_or_null response "last-modified"))
    (λ _, ret None).

Definition getDomHash {D : Digest} (w : World) (page : nat) : M string :=
  await domContent := ask (page_content w) in
  ret (sha256_hex_text domContent).

Record ProcessedImages : Type := {
  png : Buffer;
  webp : Buffer;
  thumb : Buffer;
  sha256 : string;
  images_imgHash : string
}.

Definition processImage {D : Digest} (w : World) (screenshot : Buffer)
  (job : CaptureJob) : M ProcessedImages :=
  let png := screenshot in
  await webp := ask (sharp_webp w screenshot) in
  await thumb := ask (sharp_thumb w screenshot) in
  let sha256 := sha256_hex screenshot in
  let imgHash := md5_hex screenshot in
  ret {| png := png; webp := webp; thumb := thumb; sha256 := sha256;
         images_imgHash := imgHash |}.

Definition extractText (ocr : OcrReplies) (imageBuffer : Buffer) : M string :=
  await worker := ask (createWorker ocr) in
  try_finally (ask (recognize ocr imageBuffer)) (ask (terminate ocr)).

Definition detectAndBlurPII (ocr : OcrReplies) (imageBuffer : Buffer)
  : M bool :=
  await text := extractText ocr imageBuffer in
  let hasPII := hasPII text in
  await _ := (if hasPII
              then console_write "PII detected, image should be blurred"
              else ret tt) in
  ret hasPII.

(** The loop of [uploadToS3] over the three uploads (key, body, content
    type), filling the [urls] object. *)
Fixpoint upload_loop (w : World) (bucket : string)
  (uploads : list (string * Buffer * string)) (urls : gmap string string)
  : M (gmap string string) :=
  match uploads with
  | [] => ret urls
  | upload :: rest =>
      let key := upload.1.1 in
      await _ := ask (s3_send w bucket key upload.1.2 upload.2) in
      let urlKey := if includes key "thumb" then "thumb"
                    else if includes key "webp" then "webp" else "png" in
      upload_loop w bucket rest
        (<[urlKey := env_CDN_URL w +:+ "/" +:+ key]> urls)
  end.

Definition uploadToS3 (w : World) (images : ProcessedImages)
  (job : CaptureJob) : M (gmap string string) :=
  let bucket := env_S3_BUCKET w in
  let prefix := "screenshots/" +:+ siteId job +:+ "/" +:+ screenId job in
  let uploads :=
    [ (prefix +:+ "/original.webp", webp images, "image/webp");
      (prefix +:+ "/original.png", png images, "image/png");
      (prefix +:+ "/thumb.webp", thumb images, "image/webp") ] in
  upload_loop w bucket uploads ∅.

(** The score of a new image hash against the previous capture, if any. *)
Definition diff_against (previousCapture : option Capture)
  (newImgHash : string) : Q :=
  match previousCapture with
  | None => 0
  | Some previous =>
      if String.eqb (imgHash previous) newImgHash then 0 else 1 # 2
  end.

Definition calculateDiffScore (w : World) (screenId : string)
  (newImgHash : string) : M Q :=
  await previousCapture := capture_findFirst (db_find_capture w) screenId in
  ret (diff_against previousCapture newImgHash).

(** What the job holds once the uploads are done. *)
Record Staged : Type := {
  st_page : nat;
  st_etag : option string;
  st_lastModified : option string;
  st_domHash : string;
  st_images : ProcessedImages;
  st_ocrText : option string;
  st_aiTags : list string;
  st_piiBlur : bool;
  st_fileUrls : gmap string string
}.

Record JobResult : Type := {
  success : bool;
  result_screenId : string;
  captureId : nat;
  fileId : nat;
  urls : gmap string string
}.

(** [processJob] between the opening of the page and the upload to S3
    (lines 66 to 114). *)
Definition render_on_page {D : Digest} (w : World) (job : CaptureJob)
  (page : nat) : M Staged :=
  await _ := ask (page_setViewportSize w) in
  await _ := ask (page_goto w) in
  await _ := handleCookieBanners w page in
  await _ := scrollToLoadContent w page in
  await _ := ask (page_waitForTimeout w 2000) in
  await screenshot := ask (page_screenshot w) in
  await etag := getEtag w page in
  await lastModified := getLastModified w page in
  await domHash := getDomHash w page in
  await processedImages := processImage w screenshot job in
  await ocrText :=
    (if withContent job
     then await text := extractText (ocr_text w) screenshot in
          ret (Some text)
     else ret None) in
  let aiTags := generateAITags (url job) ocrText in
  await piiBlur := detectAndBlurPII (ocr_pii w) (png processedImages) in
  await fileUrls := uploadToS3 w processedImages job in
  ret {| st_page := page; st_etag := etag; st_lastModified := lastModified;
         st_domHash := domHash; st_images := processedImages;
         st_ocrText := ocrText; st_aiTags := aiTags; st_piiBlur := piiBlur;
         st_fileUrls := fileUrls |}.

(** [processJob], from the first statement of its [try] block to the
    upload to S3 (lines 57 to 114). *)
Definition render_and_upload {D : Digest} (w : World) (job : CaptureJob)
  : M Staged :=
  await _ := screen_update (db_mark_processing w) (screenId job)
               (set_status processing) in
  await page := newPage w in
  render_on_page w job page.

(** The [data] of [prisma.screenFile.create]. *)
Definition file_row (job : CaptureJob) (d : Staged) (i : nat) : ScreenFile :=
  {| file_id := i; file_screenId := screenId job;
     webpUrl := st_fileUrls d !! "webp";
     pngUrl := st_fileUrls d !! "png";
     thumbUrl := st_fileUrls d !! "thumb";
     file_sha256 := sha256 (st_images d);
     file_imgHash := images_imgHash (st_images d) |}.

(** The [data] of [prisma.capture.create]. *)
Definition capture_row (job : CaptureJob) (d : Staged) (score : Q) (i : nat)
  : Capture :=
  {| capture_id := i; capture_screenId := screenId job;
     etag := st_etag d; lastModified := st_lastModified d;
     domHash := st_domHash d;
     imgHash := images_imgHash (st_images d);
     diffScore := score;
     changed := false |}.

(** The [data] of the last [prisma.screen.update]. *)
Definition captured_row (w : World) (d : Staged) (row : Screen) : Screen :=
  {| status := captured; ocrText := st_ocrText d; aiTags := st_aiTags d;
     piiBlur := st_piiBlur d; lastSeenAt := Some (clock_now w) |}.

(** [processJob], from the first database row to the end of its [try]
    block (lines 116 to 161). *)
Definition persist (w : World) (job : CaptureJob) (d : Staged)
  : M JobResult :=
  await screenFile :=
    screenFile_create (db_create_screenFile w) (file_row job d) in
  await score :=
    calculateDiffScore w (screenId job) (images_imgHash (st_images d)) in
  await capture :=
    capture_create (db_create_capture w) (capture_row job d score) in
  await _ :=
    screen_update (db_mark_captured w) (screenId job) (captured_row w d) in
  await _ := closePage w (st_page d) in
  ret {| success := true; result_screenId := screenId job;
         captureId := capture_id capture; fileId := file_id screenFile;
         urls := st_fileUrls d |}.

(** The [catch] block of [processJob]. *)
Definition on_failure (w : World) (job : CaptureJob) (error : string)
  : M JobResult :=
  await _ := console_write
               ("Capture failed for " +:+ url job +:+ ": " +:+ error) in
  await _ := screen_update (db_mark_failed w) (screenId job)
               (set_status failed) in
  throw error.

(** The [try] block of [processJob]. *)
Definition try_block {D : Digest} (w : World) (job : CaptureJob)
  : M JobResult :=
  await d := render_and_upload w job in
  persist w job d.

Definition processJob {D : Digest} (w : World) (job : CaptureJob)
  : M JobResult :=
  λ s, if initialized s
       then try_catch (try_block w job) (on_failure w job) s
       else (Throw "Browser not initialized", s).

(** ** The change flag as the screen-detail route computes it *)

(** [previousCapture ? (capture.diffScore || 0) > 0.1 : false], from the
    [GET] handler that lists the version history of a screen. *)
Definition hasChanged (previousCapture : option Capture) (capture : Capture)
  : bool :=
  match previousCapture with
  | Some _ => negb (Qle_bool (diffScore capture) (1 # 10))
  | None => false
  end.

(** ** Reading a run *)

(** The status column of a screen. *)
Definition status_of (s : St) (key : string) : option Status :=
  status <$> screens s !! key.

(** A step is quiet when it touches neither the tables of captures and
    files, nor the browser pages, nor the set of screens: it may only
    write to the console or change the columns of a screen. *)
Definition quiet (s s' : St) : Prop :=
  initialized s' = initialized s
  ∧ screenFiles s' = screenFiles s
  ∧ captures s' = captures s
  ∧ next_id s' = next_id s
  ∧ next_page s' = next_page s
  ∧ pages s' = pages s
  ∧ dom (screens s') = dom (screens s).

Definition stays_quiet {A : Type} (m : M A) : Prop :=
  ∀ s, quiet s (m s).2.

(** The score is one of the two values of [calculateDiffScore]. *)
Definition binary_score (c : Capture) : Prop :=
  diffScore c = 0%Q ∨ diffScore c = (1 # 2)%Q.

(** ** A concrete world for the examples *)

(** A digest for the examples: the input itself behind a tag, so that
    distinct inputs have distinct digests. *)
Definition example_digest : Digest :=
  {| sha256_hex := λ b, "sha256:" +:+ string_of_list_byte b;
     md5_hex := λ b, "md5:" +:+ string_of_list_byte b;
     sha256_hex_text := λ t, "sha256:" +:+ t |}.

Definition ocr_ok (text : string) : OcrReplies :=
  {| createWorker := Ok tt; recognize := λ _, Ok text; terminate := Ok tt |}.

(** A world in which every collaborator answers, except for the replies
    given as arguments. *)
Definition example_world (screenshot : Buffer) (content : string)
  (goto create_capture mark_failed : Res unit) : World :=
  {| db_mark_processing := Ok tt;
     browser_newPage := Ok tt;
     page_setViewportSize := Ok tt;
     page_goto := goto;
     page_query := λ _, Ok false;
     element_click := λ _, Ok tt;
     page_waitForTimeout := λ _, Ok tt;
     page_evaluate_scroll := Ok tt;
     page_screenshot := Ok screenshot;
     etag_response := Ok ∅;
     lastModified_response := Throw "Timeout 30000ms exceeded";
     page_content := Ok content;
     sharp_webp := λ b, Ok b;
     sharp_thumb := λ b, Ok b;
     ocr_text := ocr_ok "Apple Store";
     ocr_pii := ocr_ok "Apple Store";
     s3_send := λ _ _ _ _, Ok tt;
     env_S3_BUCKET := "screens";
     env_CDN_URL := "https://cdn.example.com";
     db_create_screenFile := Ok tt;
     db_find_capture := Ok tt;
     db_create_capture := create_capture;
     db_mark_captured := Ok tt;
     clock_now := 1700000000%N;
     page_close := Ok tt;
     db_mark_failed := mark_failed |}.

(** The job of [main]. *)
Definition example_job : CaptureJob :=
  {| job_id := "test-job"; url := "https://www.apple.com/store";
     breakpoint := desktop; width := 1440; height := 900;
     withContent := true; priority := 5; siteId := "site-id";
     screenId := "screen-id" |}.

(** The same screen asked for at the mobile size. *)
Definition example_job_mobile : CaptureJob :=
  {| job_id := "test-job-2"; url := "https://www.apple.com/store";
     breakpoint := mobile; width := 390; height := 844;
     withContent := true; priority := 5; siteId := "site-id";
     screenId := "screen-id" |}.

Definition pending_screen : Screen :=
  {| status := pending; ocrText := None; aiTags := []; piiBlur := false;
     lastSeenAt := None |}.

(** An initialized worker, the screen of the job pending, no capture yet. *)
Definition example_state : St :=
  {| initialized := true;
     screens := {[ "screen-id" := pending_screen ]};
     screenFiles := []; captures := [];
     next_id := 0; next_page := 0; pages := []; console := [] |}.

Definition shot_a : Buffer := [Byte.x89; Byte.x50; Byte.x4e; Byte.x47; Byte.x01].
Definition shot_b : Buffer := [Byte.x89; Byte.x50; Byte.x4e; Byte.x47; Byte.x02].

(** A timeout of the navigation. *)
Definition goto_timeout : Res unit := Throw "page.goto: Timeout 30000ms exceeded".

(** The state after a first successful capture of the example screen. *)
Definition state_after_first : St :=
  (processJob (D := example_digest)
     (example_world shot_a "<html></html>" (Ok tt) (Ok tt) (Ok tt))
     example_job example_state).2.

(** The captures of the example screen after a second job, for the same
    screen at the mobile size, whose page has the same DOM and another
    image. *)
Definition captures_after_resize : list Capture :=
  captures
    (processJob (D := example_digest)
       (example_world shot_b "<html></html>" (Ok tt) (Ok tt) (Ok tt))
       example_job_mobile state_after_first).2.

(** ** The claims that the code does not meet, as they are stated *)

(** Failure containment for one run: when the job throws although the page
    had been set to [processing], the page is [failed] and the job has
    added no row to either table. *)
Definition failure_contained {D : Digest} (w : World) (job : CaptureJob)
  (s : St) : Prop :=
  db_mark_processing w = Ok tt →
  is_Some (screens s !! screenId job) →
  ∀ e s', processJob w job s = (Throw e, s') →
    status_of s' (screenId job) = Some failed
    ∧ screenFiles s' = screenFiles s
    ∧ captures s' = captures s.

(** Atomic persistence for one run: the job adds both rows or neither. *)
Definition rows_atomic {D : Digest} (w : World) (job : CaptureJob)
  (s : St) : Prop :=
  ∀ r s', processJob w job s = (r, s') →
    (screenFiles s' = screenFiles s ∧ captures s' = captures s)
    ∨ (∃ f c, screenFiles s' = f :: screenFiles s
              ∧ captures s' = c :: captures s).

(** The fallback for a changed viewport: the score of the new capture
    signals a change exactly when its DOM hash differs from that of the
    previous capture. *)
Definition dom_hash_is_sole_signal (previous new : Capture) : Prop :=
  diffScore new ≠ 0%Q ↔ domHash new ≠ domHash previous.

(** ** Definitions for the further properties *)

(** The folder of the uploads of a job. *)
Definition key_prefix (job : CaptureJob) : string :=
  "screenshots/" +:+ siteId job +:+ "/" +:+ screenId job.

(** The public URL of an uploaded file of a job. *)
Definition cdn_url (w : World) (job : CaptureJob) (file : string) : string :=
  env_CDN_URL w +:+ "/" +:+ (key_prefix job +:+ String "/" file).

(** The site id or the screen id of the job contains [x]. *)
Definition ids_mention (job : CaptureJob) (x : string) : bool :=
  includes (siteId job) x || includes (screenId job) x.

(** The object [uploadToS3] returns when its three uploads succeed. *)
Definition expected_urls (w : World) (job : CaptureJob) : gmap string string :=
  if ids_mention job "thumb"
  then {[ "thumb" := cdn_url w job "thumb.webp" ]}
  else if ids_mention job "webp"
  then <[ "thumb" := cdn_url w job "thumb.webp" ]>
         {[ "webp" := cdn_url w job "original.png" ]}
  else <[ "thumb" := cdn_url w job "thumb.webp" ]>
         (<[ "png" := cdn_url w job "original.png" ]>
            {[ "webp" := cdn_url w job "original.webp" ]}).

(** Every step of [m] relates the state before to the state after. *)
Definition keeps (R : St → St → Prop) {A : Type} (m : M A) : Prop :=
  ∀ s, R s (m s).2.

(** The rows of the screens other than [key] are the same. *)
Definition others_same (key : string) (s s' : St) : Prop :=
  ∀ k, k ≠ key → screens s' !! k = screens s !! k.

(** A phone-shaped string inside a text: three digits, three digits and
    four digits, each group separated from the next by nothing, a white
    space or a hyphen, with no word character right before or after. *)
Definition phone_shaped_in (text : string) : Prop :=
  ∃ pre a sep1 b sep2 c post : string,
    text = pre +:+ a +:+ sep1 +:+ b +:+ sep2 +:+ c +:+ post
    ∧ String.length a = 3 ∧ all_in is_digit a
    ∧ String.length b = 3 ∧ all_in is_digit b
    ∧ String.length c = 4 ∧ all_in is_digit c
    ∧ String.length sep1 ≤ 1 ∧ all_in is_sep sep1
    ∧ String.length sep2 ≤ 1 ∧ all_in is_sep sep2
    ∧ word_at (last (chars pre)) = false
    ∧ word_at (head (chars post)) = false.

(** The test behind each tag. *)
Definition keyword_hit (url text kw : string) : bool :=
  includes (toLowerCase url) kw || includes (toLowerCase text) kw.

(** [screen.captures] of the [GET] handler: the captures of the screen,
    ordered by [createdAt] descending. *)
Definition screen_captures (key : string) (rows : list Capture)
  : list Capture :=
  List.filter (λ c, String.eqb (capture_screenId c) key) rows.

(** [screen.captures.map((capture, index) => ...)]: each capture with the
    flag computed against [screen.captures[index + 1]]. *)
Definition capturesWithDiffs (rows : list Capture) : list (Capture * bool) :=
  imap (λ index capture, (capture, hasChanged (rows !! S index) capture)) rows.

Definition ALLOWED_SITES : list string :=
  [ "apple.com"; "airbnb.com"; "ticketmaster.com"; "stubhub.com";
    "seatgeek.com"; "gametime.co" ].

(** [hay.replace(needle, '')] for a string [needle]: the first occurrence,
    if any, is removed. *)
Fixpoint remove_first (needle hay : list ascii) : list ascii :=
  if starts_with needle hay then drop (length needle) hay
  else match hay with
       | [] => []
       | c :: rest => c :: remove_first needle rest
       end.

(** [urlObj.hostname.replace('www.', '')] *)
Definition capture_domain (hostname : string) : string :=
  of_chars (remove_first (chars "www.") (chars hostname)).

(** [ALLOWED_SITES.includes(domain)] on the domain of the host name. *)
Definition host_allowed (hostname : string) : bool :=
  existsb (String.eqb (capture_domain hostname)) ALLOWED_SITES.

(** [generatePathFromQuery] *)
Definition generatePathFromQuery (query : string) (index : nat) : string :=
  let queryLower := toLowerCase query in
  if includes queryLower "checkout" || includes queryLower "payment"
  then "/checkout"
  else if includes queryLower "ticket" && includes queryLower "transfer"
  then "/tickets/transfer"
  else if includes queryLower "event" || includes queryLower "concert"
  then "/event/" +:+ pretty (1000 + index)
  else if includes queryLower "room" || includes queryLower "accommodation"
  then "/rooms/" +:+ pretty (2000 + index)
  else if includes queryLower "store" || includes queryLower "product"
  then "/store/product/" +:+ pretty (3000 + index)
  else "/".

(** [s.split(sep)] for a separator of one code unit. *)
Fixpoint split_at (sep : ascii) (s : list ascii) : list (list ascii) :=
  match s with
  | [] => [[]]
  | c :: rest =>
      if decide (c = sep) then [] :: split_at sep rest
      else match split_at sep rest with
           | word :: words => (c :: word) :: words
           | [] => [[c]]
           end
  end.

(** [s.split(' ')] *)
Definition split_spaces (s : string) : list string :=
  of_chars <$> split_at " "%char (chars s).

(** A job as the search route builds it. *)
Record SearchJob : Type := {
  search_url : string;
  search_site : string;
  search_breakpoints : list Breakpoint;
  search_priority : nat
}.

(** [Math.min(3, Math.max(1, queryKeywords.length))] *)
Definition url_count (query : string) : nat :=
  Nat.min 3 (Nat.max 1 (length (split_spaces (toLowerCase query)))).

(** [enqueueCaptureJobs] *)
Definition enqueueCaptureJobs (query : string) (sites : list string)
  : list SearchJob :=
  site ← sites;
  (λ i, {| search_url := "https://www." +:+ site
                         +:+ generatePathFromQuery query i;
           search_site := site;
           search_breakpoints := [desktop; mobile];
           search_priority := 1 |}) <$> seq 0 (url_count query).

(** The number of spaces of a string. *)
Definition spaces (s : string) : nat :=
  length (List.filter (λ c, bool_decide (c = " "%char)) (chars s)).

(** ** Jobs between two captures, and the shapes of the PII patterns *)

(** [s'] is reached from [s] by any number of jobs, each of which is for a
    screen other than [key] or stores no capture (a job that fails before
    its capture row is written). *)
Inductive jobs_between {D : Digest} (key : string) : St → St → Prop :=
  | between_none (s : St) : jobs_between key s s
  | between_job (w : World) (job : CaptureJob) (s s' : St) :
      screenId job ≠ key ∨ captures (processJob w job s).2 = captures s →
      jobs_between key (processJob w job s).2 s' →
      jobs_between key s s'.

(** What a job stores when the image has not changed: nothing, or one
    capture with score 0 and [changed] false; and that capture if the job
    succeeds. *)
Definition stores_unchanged (s s' : St) (r : Res JobResult) : Prop :=
  (captures s' = captures s
   ∨ ∃ c, captures s' = c :: captures s
          ∧ diffScore c = 0%Q ∧ changed c = false)
  ∧ ∀ jr, r = Ok jr →
      ∃ c, captures s' = c :: captures s ∧ capture_id c = captureId jr
           ∧ diffScore c = 0%Q ∧ changed c = false.

(** A second screen, and a job for it. *)
Definition example_job_other : CaptureJob :=
  {| job_id := "other-job"; url := "https://www.airbnb.com/rooms/123";
     breakpoint := desktop; width := 1440; height := 900;
     withContent := false; priority := 5; siteId := "site-2";
     screenId := "other-screen" |}.

(** The example state with the rows of both screens. *)
Definition example_state_two : St :=
  with_screens example_state
    (<[ "other-screen" := pending_screen ]> (screens example_state)).

Definition is_letter (c : ascii) : bool := is_upper c || is_lower c.

(** An email-shaped string as the claim says it, without regard to what
    surrounds it: a local part, [@], a domain, a dot and two or more
    letters. *)
Definition email_shape (e : string) : Prop :=
  ∃ loc dom tld : string,
    e = loc +:+ "@" +:+ dom +:+ "." +:+ tld
    ∧ loc ≠ "" ∧ all_in is_email_local loc
    ∧ dom ≠ "" ∧ all_in is_email_domain dom
    ∧ 2 ≤ String.length tld ∧ all_in is_letter tld.

Definition contains_email_shape (text : string) : Prop :=
  ∃ pre e post : string, text = pre +:+ e +:+ post ∧ email_shape e.

(** A national-ID-shaped string inside a text: three digits, a hyphen, two
    digits, a hyphen and four digits, with no word character right before
    or after. *)
Definition ssn_shaped_in (text : string) : Prop :=
  ∃ pre a b c post : string,
    text = pre +:+ a +:+ "-" +:+ b +:+ "-" +:+ c +:+ post
    ∧ String.length a = 3 ∧ all_in is_digit a
    ∧ String.length b = 2 ∧ all_in is_digit b
    ∧ String.length c = 4 ∧ all_in is_digit c
    ∧ word_at (last (chars pre)) = false
    ∧ word_at (head (chars post)) = false.

(** A payment-card-shaped string inside a text: four groups of four
    digits, each separated from the next by nothing, a white space or a
    hyphen, with no word character right before or after. *)
Definition card_shaped_in (text : string) : Prop :=
  ∃ pre a sep1 b sep2 c sep3 d post : string,
    text = pre +:+ a +:+ sep1 +:+ b +:+ sep2 +:+ c +:+ sep3 +:+ d +:+ post
    ∧ String.length a = 4 ∧ all_in is_digit a
    ∧ String.length b = 4 ∧ all_in is_digit b
    ∧ String.length c = 4 ∧ all_in is_digit c
    ∧ String.length d = 4 ∧ all_in is_digit d
    ∧ String.length sep1 ≤ 1 ∧ all_in is_sep sep1
    ∧ String.length sep2 ≤ 1 ∧ all_in is_sep sep2
    ∧ String.length sep3 ≤ 1 ∧ all_in is_sep sep3
    ∧ word_at (last (chars pre)) = false
    ∧ word_at (head (chars post)) = false.

(** * Properties *)

(** ** Strings *)

Lemma of_chars_chars (s : string) : of_chars (chars s) = s.
Proof. apply string_of_list_ascii_of_string. Qed.

Lemma chars_of_chars (l : list ascii) : chars (of_chars l) = l.
Proof. apply list_ascii_of_string_of_list_ascii. Qed.

Lemma chars_app (a b : string) : chars (a +:+ b) = chars a ++ chars b.
Proof.
  unfold chars. induction a as [|c a IH]; simpl; [done | by rewrite IH].
Qed.

Lemma of_chars_app (a b : list ascii) :
  of_chars (a ++ b) = of_chars a +:+ of_chars b.
Proof.
  unfold of_chars. induction a as [|c a IH]; simpl; [done | by rewrite IH].
Qed.

Lemma chars_inj (a b : string) : chars a = chars b → a = b.
Proof.
  intros H. rewrite <- (of_chars_chars a), <- (of_chars_chars b).
  by rewrite H.
Qed.

Lemma starts_with_spec (needle hay : list ascii) :
  starts_with needle hay = true ↔ ∃ post, hay = needle ++ post.
Proof.
  revert hay. induction needle as [|a needle IH]; intros hay; simpl.
  - split; [eauto | done].
  - destruct hay as [|b hay].
    + split; [done | intros [post H]; discriminate].
    + destruct (decide (a = b)) as [->|Hne].
      * rewrite IH. split; intros [post H]; exists post; simpl in *; congruence.
      * split; [done | intros [post H]; simpl in H; congruence].
Qed.

Lemma index_in_spec (needle hay : list ascii) :
  index_in needle hay = true ↔ ∃ pre post, hay = pre ++ needle ++ post.
Proof.
  induction hay as [|b hay IH]; simpl.
  - rewrite orb_false_r, starts_with_spec. split.
    + intros [post H]. by exists [], post.
    + intros (pre & post & H). symmetry in H.
      apply app_eq_nil in H as [-> H]. apply app_eq_nil in H as [-> ->].
      by exists [].
  - rewrite orb_true_iff, starts_with_spec, IH. split.
    + intros [[post H] | (pre & post & H)].
      * by exists [], post.
      * exists (b :: pre), post. by rewrite H.
    + intros (pre & post & H). destruct pre as [|c pre]; simpl in H.
      * left. eauto.
      * right. exists pre, post. congruence.
Qed.



Lemma chars_toLowerCase (s : string) :
  chars (toLowerCase s) = map lower_char (chars s).
Proof. unfold toLowerCase. by rewrite chars_of_chars. Qed.



(** ** Tag classifier *)







(** ** The matcher agrees with the meaning of the patterns *)

(** The code unit that precedes the rest once [m] has been consumed. *)
Lemma last_after (before m : list ascii) :
  last (before ++ m) = match last m with Some c => Some c | None => last before end.
Proof. apply last_app. Qed.

Lemma runs_spec (cls : ascii → bool) (prev : option ascii) (s : list ascii)
  (k : nat) (p : option ascii) (r : list ascii) :
  In (k, p, r) (runs cls prev s)
  ↔ ∃ m, s = m ++ r ∧ length m = k ∧ Forall (λ c, cls c = true) m
         ∧ p = match last m with Some c => Some c | None => prev end.
Proof.
  revert prev k. induction s as [|c t IH]; intros prev k; simpl.
  - split.
    + intros [H | []]. injection H as <- <- <-. by exists [].
    + intros (m & Hs & Hk & _ & Hp). symmetry in Hs.
      apply app_eq_nil in Hs as [-> ->]. simpl in *. left. congruence.
  - split.
    + intros [H | H].
      { injection H as <- <- <-. by exists []. }
      destruct (cls c) eqn:Hc; [|done].
      apply in_map_iff in H as ([[k' p'] r'] & Heq & Hin). simpl in Heq.
      injection Heq as <- <- <-.
      apply IH in Hin as (m & -> & Hk & Hall & Hp).
      exists (c :: m). split; [done|]. split; [simpl; congruence|].
      split; [by constructor|]. rewrite last_cons. by destruct (last m).
    + intros (m & Hs & Hk & Hall & Hp). destruct m as [|c' m]; simpl in *.
      { left. congruence. }
      right. injection Hs as <- ->. apply Forall_cons in Hall as [Hc Hall].
      rewrite Hc. apply in_map_iff. exists (length m, p, r). split.
      * simpl. by rewrite Hk.
      * apply IH. exists m. repeat split; [done|].
        rewrite last_cons in Hp. by destruct (last m).
Qed.

Lemma within_spec (lo : nat) (hi : option nat) (k : nat) :
  within lo hi k = true ↔ lo ≤ k ∧ ∀ h, hi = Some h → k ≤ h.
Proof.
  unfold within. rewrite andb_true_iff, Nat.leb_le. destruct hi as [h|].
  - rewrite Nat.leb_le. split.
    + intros [H1 H2]. split; [done|]. intros ? [= <-]. done.
    + intros [H1 H2]. split; [done|]. by apply H2.
  - split; [|tauto]. intros [H1 _]. split; [done|]. intros ? [=].
Qed.

Lemma at_boundary_spec (prev next : option ascii) :
  at_boundary prev next = true ↔ word_at prev ≠ word_at next.
Proof. unfold at_boundary. destruct (word_at prev), (word_at next); simpl; split; congruence. Qed.

Lemma item_ends_spec (it : item) (before s : list ascii)
  (p : option ascii) (r : list ascii) :
  In (p, r) (item_ends it (last before) s)
  ↔ ∃ m, s = m ++ r ∧ item_matches it before m r ∧ p = last (before ++ m).
Proof.
  destruct it as [|cls lo hi]; simpl.
  - destruct (at_boundary (last before) (head s)) eqn:Hb.
    + apply at_boundary_spec in Hb. split.
      * intros [H | []]. injection H as <- <-. exists [].
        by rewrite app_nil_r.
      * intros (m & -> & [-> _] & ->). left. by rewrite app_nil_r.
    + split; [done|]. intros (m & -> & [-> H] & _). simpl in *.
      apply at_boundary_spec in H. congruence.
  - rewrite in_map_iff. split.
    + intros ([[k p'] r'] & Heq & Hin). simpl in Heq. injection Heq as <- <-.
      apply filter_In in Hin as [Hin Hk]. simpl in Hk.
      apply in_rev, runs_spec in Hin as (m & -> & Hlen & Hall & ->).
      apply within_spec in Hk as [Hlo Hhi]. exists m.
      rewrite last_after, Hlen. by split_and!.
    + intros (m & -> & (Hall & Hlo & Hhi) & ->).
      exists (length m, last (before ++ m), r). split; [done|].
      apply filter_In. split.
      * apply in_rev. rewrite rev_involutive. apply runs_spec. exists m.
        by rewrite last_after.
      * simpl. by apply within_spec.
Qed.

Lemma match_items_spec (items : list item) (before s : list ascii) :
  match_items items (last before) s = true
  ↔ ∃ m r, s = m ++ r ∧ items_match items before m r.
Proof.
  revert before s. induction items as [|it rest IH]; intros before s; simpl.
  - split; [|done]. intros _. by exists [], s.
  - rewrite existsb_exists. split.
    + intros ([p r] & Hin & Hm). simpl in Hm.
      apply item_ends_spec in Hin as (m1 & -> & Hit & ->).
      apply IH in Hm as (m2 & r' & -> & Hrest).
      exists (m1 ++ m2), r'. rewrite <- app_assoc. split; [done|].
      by exists m1, m2.
    + intros (m & r & -> & m1 & m2 & -> & Hit & Hrest).
      exists (last (before ++ m1), m2 ++ r). split.
      * apply item_ends_spec. exists m1. by rewrite <- app_assoc.
      * simpl. apply IH. by exists m2, r.
Qed.

Lemma search_spec (items : list item) (before s : list ascii) :
  search items (last before) s = true
  ↔ ∃ skip m r, s = skip ++ m ++ r ∧ items_match items (before ++ skip) m r.
Proof.
  revert before. induction s as [|c t IH]; intros before; simpl.
  - rewrite orb_false_r, match_items_spec. split.
    + intros (m & r & H & Hm). exists [], m, r. by rewrite app_nil_r.
    + intros (skip & m & r & H & Hm). symmetry in H.
      apply app_eq_nil in H as [-> H]. rewrite app_nil_r in Hm. symmetry in H.
      by exists m, r.
  - rewrite orb_true_iff, match_items_spec. split.
    + intros [(m & r & H & Hm) | H].
      * exists [], m, r. by rewrite app_nil_r.
      * assert (Hl : Some c = last (before ++ [c])) by by rewrite last_snoc.
        rewrite Hl in H. apply IH in H as (skip & m & r & -> & Hm).
        exists (c :: skip), m, r. split; [done|].
        by rewrite <- app_assoc in Hm.
    + intros (skip & m & r & H & Hm). destruct skip as [|c' skip].
      * left. rewrite app_nil_r in Hm. by exists m, r.
      * right. simpl in H. injection H as <- ->.
        assert (Hl : Some c = last (before ++ [c])) by by rewrite last_snoc.
        rewrite Hl. apply IH. exists skip, m, r. split; [done|].
        by rewrite <- app_assoc.
Qed.

(** [test] is true exactly when the pattern matches some part of the text. *)
Lemma test_spec (pattern : list item) (text : string) :
  test pattern text = true ↔ pattern_matches pattern text.
Proof.
  unfold test, pattern_matches.
  change (@None ascii) with (last (@nil ascii)).
  by rewrite search_spec.
Qed.

Lemma hasPII_spec (text : string) :
  hasPII text = true
  ↔ ∃ pattern, pattern ∈ piiPatterns ∧ pattern_matches pattern text.
Proof.
  unfold hasPII. rewrite existsb_exists. split.
  - intros (p & Hin & Ht). exists p. split.
    + by apply list_elem_of_In.
    + by apply test_spec.
  - intros (p & Hin & Hm). exists p. split.
    + by apply list_elem_of_In.
    + by apply test_spec.
Qed.

(** ** Computations *)

Lemma bind_Ok_inv {A B : Type} (m : M A) (k : A → M B) (s s' : St) (b : B) :
  bind m k s = (Ok b, s') → ∃ a s1, m s = (Ok a, s1) ∧ k a s1 = (Ok b, s').
Proof.
  unfold bind. destruct (m s) as [[a|e] s1]; [eauto | discriminate].
Qed.

Lemma ask_inv {A : Type} (reply r : Res A) (s s' : St) :
  ask reply s = (r, s') → r = reply ∧ s' = s.
Proof. unfold ask. by intros [= <- <-]. Qed.

(** A run whose result is known. *)
Lemma run_eq {A : Type} (x : Res A * St) (r : Res A) :
  x.1 = r → x = (r, x.2).
Proof. destruct x. simpl. congruence. Qed.

Lemma quiet_refl (s : St) : quiet s s.
Proof. by repeat split. Qed.

Lemma quiet_trans (s1 s2 s3 : St) : quiet s1 s2 → quiet s2 s3 → quiet s1 s3.
Proof.
  unfold quiet. intros (?&?&?&?&?&?&?) (?&?&?&?&?&?&?).
  split_and!; congruence.
Qed.

Lemma stays_quiet_ret {A : Type} (a : A) : stays_quiet (ret a).
Proof. intros s. apply quiet_refl. Qed.

Lemma stays_quiet_throw {A : Type} (e : string) : stays_quiet (@throw A e).
Proof. intros s. apply quiet_refl. Qed.

Lemma stays_quiet_ask {A : Type} (reply : Res A) : stays_quiet (ask reply).
Proof. intros s. apply quiet_refl. Qed.

Lemma stays_quiet_bind {A B : Type} (m : M A) (k : A → M B) :
  stays_quiet m → (∀ a, stays_quiet (k a)) → stays_quiet (bind m k).
Proof.
  intros Hm Hk s. unfold bind. specialize (Hm s).
  destruct (m s) as [[a|e] s1]; simpl in *; [|done].
  eapply quiet_trans; [exact Hm | apply Hk].
Qed.

Lemma stays_quiet_try_catch {A : Type} (m : M A) (handler : string → M A) :
  stays_quiet m → (∀ e, stays_quiet (handler e)) →
  stays_quiet (try_catch m handler).
Proof.
  intros Hm Hh s. unfold try_catch. specialize (Hm s).
  destruct (m s) as [[a|e] s1]; simpl in *; [done|].
  eapply quiet_trans; [exact Hm | apply Hh].
Qed.

Lemma stays_quiet_try_finally {A : Type} (m : M A) (cleanup : M unit) :
  stays_quiet m → stays_quiet cleanup → stays_quiet (try_finally m cleanup).
Proof.
  intros Hm Hc s. unfold try_finally. specialize (Hm s).
  destruct (m s) as [r s1]. specialize (Hc s1).
  destruct (cleanup s1) as [[[]|e] s2]; simpl in *;
    by eapply quiet_trans.
Qed.

Lemma stays_quiet_console_write (line : string) :
  stays_quiet (console_write line).
Proof. intros s. by repeat split. Qed.

Lemma stays_quiet_screen_update (reply : Res unit) (key : string)
  (data : Screen → Screen) :
  stays_quiet (screen_update reply key data).
Proof.
  intros s. unfold screen_update. destruct reply as [[]|e]; [|apply quiet_refl].
  destruct (screens s !! key) as [row|] eqn:Hrow; [|apply quiet_refl].
  unfold quiet; simpl. split_and!; try done.
  by apply dom_insert_lookup_L.
Qed.

Lemma stays_quiet_capture_findFirst (reply : Res unit) (key : string) :
  stays_quiet (capture_findFirst reply key).
Proof.
  intros s. unfold capture_findFirst. destruct reply; apply quiet_refl.
Qed.

Create HintDb quiet.
#[local] Hint Resolve stays_quiet_ret stays_quiet_throw stays_quiet_ask
  stays_quiet_console_write stays_quiet_screen_update
  stays_quiet_capture_findFirst : quiet.

(** Splits a computation into its steps, to be closed by the hints. *)
Ltac quiet_steps :=
  repeat first
    [ solve [auto with quiet]
    | apply stays_quiet_bind; [|intros ?]
    | apply stays_quiet_try_catch; [|intros ?]
    | apply stays_quiet_try_finally
    | match goal with |- stays_quiet (if ?b then _ else _) => destruct b end ].

Lemma stays_quiet_cookie_loop (w : World) (selectors : list string) :
  stays_quiet (cookie_loop w selectors).
Proof.
  induction selectors as [|selector rest IH]; simpl; quiet_steps.
Qed.

#[local] Hint Resolve stays_quiet_cookie_loop : quiet.

Lemma stays_quiet_handleCookieBanners (w : World) (page : nat) :
  stays_quiet (handleCookieBanners w page).
Proof.
  unfold handleCookieBanners. quiet_steps.
Qed.

Lemma stays_quiet_scrollToLoadContent (w : World) (page : nat) :
  stays_quiet (scrollToLoadContent w page).
Proof. unfold scrollToLoadContent. quiet_steps. Qed.

Lemma stays_quiet_getEtag (w : World) (page : nat) :
  stays_quiet (getEtag w page).
Proof. unfold getEtag. quiet_steps. Qed.

Lemma stays_quiet_getLastModified (w : World) (page : nat) :
  stays_quiet (getLastModified w page).
Proof. unfold getLastModified. quiet_steps. Qed.

Lemma stays_quiet_getDomHash {D : Digest} (w : World) (page : nat) :
  stays_quiet (getDomHash w page).
Proof. unfold getDomHash. quiet_steps. Qed.

Lemma stays_quiet_processImage {D : Digest} (w : World) (shot : Buffer)
  (job : CaptureJob) :
  stays_quiet (processImage w shot job).
Proof. unfold processImage. quiet_steps. Qed.

Lemma stays_quiet_extractText (ocr : OcrReplies) (image : Buffer) :
  stays_quiet (extractText ocr image).
Proof. unfold extractText. quiet_steps. Qed.

#[local] Hint Resolve stays_quiet_extractText : quiet.

Lemma stays_quiet_detectAndBlurPII (ocr : OcrReplies) (image : Buffer) :
  stays_quiet (detectAndBlurPII ocr image).
Proof.
  unfold detectAndBlurPII. quiet_steps.
Qed.

Lemma stays_quiet_upload_loop (w : World) (bucket : string)
  (uploads : list (string * Buffer * string)) (urls : gmap string string) :
  stays_quiet (upload_loop w bucket uploads urls).
Proof.
  revert urls. induction uploads as [|u rest IH]; intros urls; simpl;
    quiet_steps.
Qed.

Lemma stays_quiet_uploadToS3 (w : World) (images : ProcessedImages)
  (job : CaptureJob) :
  stays_quiet (uploadToS3 w images job).
Proof. unfold uploadToS3. apply stays_quiet_upload_loop. Qed.

Lemma stays_quiet_calculateDiffScore (w : World) (key newImgHash : string) :
  stays_quiet (calculateDiffScore w key newImgHash).
Proof. unfold calculateDiffScore. quiet_steps. Qed.

#[local] Hint Resolve stays_quiet_handleCookieBanners
  stays_quiet_scrollToLoadContent stays_quiet_getEtag
  stays_quiet_getLastModified stays_quiet_getDomHash
  stays_quiet_processImage stays_quiet_detectAndBlurPII
  stays_quiet_uploadToS3 stays_quiet_calculateDiffScore : quiet.

Lemma stays_quiet_render_on_page {D : Digest} (w : World) (job : CaptureJob)
  (page : nat) :
  stays_quiet (render_on_page w job page).
Proof. unfold render_on_page. quiet_steps. Qed.

Lemma stays_quiet_on_failure (w : World) (job : CaptureJob) (error : string) :
  stays_quiet (on_failure w job error).
Proof. unfold on_failure. quiet_steps. Qed.

(** ** What a successful rendering holds *)

Lemma processImage_Ok_inv {D : Digest} (w : World) (shot : Buffer)
  (job : CaptureJob) (s s' : St) (images : ProcessedImages) :
  processImage w shot job s = (Ok images, s') →
  png images = shot ∧ sha256 images = sha256_hex shot
  ∧ images_imgHash images = md5_hex shot.
Proof.
  unfold processImage. intros H.
  apply bind_Ok_inv in H as (webp' & s1 & _ & H).
  apply bind_Ok_inv in H as (thumb' & s2 & _ & H).
  unfold ret in H. by injection H as <- _.
Qed.

Lemma getDomHash_Ok_inv {D : Digest} (w : World) (page : nat) (s s' : St)
  (h : string) :
  getDomHash w page s = (Ok h, s') →
  ∃ content, page_content w = Ok content ∧ h = sha256_hex_text content.
Proof.
  unfold getDomHash. intros H.
  apply bind_Ok_inv in H as (content & s1 & Hc & H).
  apply ask_inv in Hc as [Hc _]. unfold ret in H. injection H as <- _.
  by exists content.
Qed.

Lemma render_on_page_Ok_inv {D : Digest} (w : World) (job : CaptureJob)
  (page : nat) (s s' : St) (d : Staged) :
  render_on_page w job page s = (Ok d, s') →
  ∃ shot content,
    page_goto w = Ok tt ∧ page_screenshot w = Ok shot
    ∧ page_content w = Ok content
    ∧ st_page d = page
    ∧ sha256 (st_images d) = sha256_hex shot
    ∧ images_imgHash (st_images d) = md5_hex shot
    ∧ st_domHash d = sha256_hex_text content
    ∧ st_aiTags d = generateAITags (url job) (st_ocrText d).
Proof.
  unfold render_on_page. intros H.
  apply bind_Ok_inv in H as ([] & s1 & _ & H).
  apply bind_Ok_inv in H as ([] & s2 & Hgoto & H).
  apply ask_inv in Hgoto as [Hgoto _].
  apply bind_Ok_inv in H as ([] & s3 & _ & H).
  apply bind_Ok_inv in H as ([] & s4 & _ & H).
  apply bind_Ok_inv in H as ([] & s5 & _ & H).
  apply bind_Ok_inv in H as (shot & s6 & Hshot & H).
  apply ask_inv in Hshot as [Hshot _].
  apply bind_Ok_inv in H as (etag' & s7 & _ & H).
  apply bind_Ok_inv in H as (lastModified' & s8 & _ & H).
  apply bind_Ok_inv in H as (domHash' & s9 & Hdom & H).
  apply getDomHash_Ok_inv in Hdom as (content & Hcontent & ->).
  apply bind_Ok_inv in H as (images & s10 & Himages & H).
  apply processImage_Ok_inv in Himages as (_ & Hsha & Hmd5).
  apply bind_Ok_inv in H as (text & s11 & _ & H).
  apply bind_Ok_inv in H as (pii & s12 & _ & H).
  apply bind_Ok_inv in H as (fileUrls & s13 & _ & H).
  unfold ret in H. injection H as <- _.
  exists shot, content. by split_and!.
Qed.

(** The opening of the page: the screen is marked, then the page opened;
    every later step of the rendering is quiet. *)
Lemma render_and_upload_effect {D : Digest} (w : World) (job : CaptureJob)
  (s : St) (r : Res Staged) (s' : St) :
  render_and_upload w job s = (r, s') →
  initialized s' = initialized s
  ∧ screenFiles s' = screenFiles s
  ∧ captures s' = captures s
  ∧ next_id s' = next_id s
  ∧ dom (screens s') = dom (screens s)
  ∧ ((pages s' = pages s
      ∧ ∃ e, r = Throw e
             ∧ (db_mark_processing w = Throw e
                ∨ screens s !! screenId job = None
                ∨ browser_newPage w = Throw e))
     ∨ (pages s' = Opened (next_page s) :: pages s
        ∧ db_mark_processing w = Ok tt ∧ browser_newPage w = Ok tt
        ∧ ∀ d, r = Ok d → st_page d = next_page s)).
Proof.
  unfold render_and_upload, bind. intros H.
  pose proof (stays_quiet_screen_update (db_mark_processing w) (screenId job)
                (set_status processing) s) as Hq1.
  destruct (screen_update _ _ _ s) as [[[]|e] s1] eqn:Hupd; simpl in Hq1.
  2:{ injection H as <- <-. destruct Hq1 as (?&?&?&?&?&?&?).
      split_and!; try done. left. split; [done|]. exists e. split; [done|].
      unfold screen_update in Hupd.
      destruct (db_mark_processing w) as [[]|e'].
      - destruct (screens s !! screenId job); [discriminate | auto].
      - left. congruence. }
  assert (Hmark : db_mark_processing w = Ok tt).
  { unfold screen_update in Hupd.
    destruct (db_mark_processing w) as [[]|]; [done | discriminate]. }
  unfold newPage in H. destruct (browser_newPage w) as [[]|e] eqn:Hnew.
  2:{ injection H as <- <-. destruct Hq1 as (?&?&?&?&?&?&?).
      split_and!; try done. left. eauto 6. }
  pose proof (stays_quiet_render_on_page w job (next_page s1)
                (with_pages s1 (S (next_page s1))
                   (Opened (next_page s1) :: pages s1))) as Hq2.
  rewrite H in Hq2. unfold quiet in Hq2. simpl in Hq2.
  destruct Hq1 as (?&?&?&?&Hnp&Hp&?), Hq2 as (?&?&?&?&?&Hp2&?).
  split_and!; [congruence..|]. right. split_and!; [congruence|done..|].
  intros d ->. apply render_on_page_Ok_inv in H as (?&?&?&?&?&?&?).
  congruence.
Qed.

Lemma render_and_upload_Ok_inv {D : Digest} (w : World) (job : CaptureJob)
  (s s' : St) (d : Staged) :
  render_and_upload w job s = (Ok d, s') →
  ∃ shot content,
    page_screenshot w = Ok shot ∧ page_content w = Ok content
    ∧ sha256 (st_images d) = sha256_hex shot
    ∧ images_imgHash (st_images d) = md5_hex shot
    ∧ st_domHash d = sha256_hex_text content.
Proof.
  unfold render_and_upload. intros H.
  apply bind_Ok_inv in H as ([] & s1 & _ & H).
  apply bind_Ok_inv in H as (page & s2 & _ & H).
  apply render_on_page_Ok_inv in H as (shot & content & H).
  exists shot, content. tauto.
Qed.

(** ** The database writes of a job *)

(** The score [persist] stores: the one of the new image hash against the
    latest capture of the screen. *)
Lemma calculateDiffScore_run (w : World) (key newImgHash : string) (s : St) :
  calculateDiffScore w key newImgHash s
  = match db_find_capture w with
    | Ok _ => (Ok (diff_against (latest_capture key (captures s)) newImgHash), s)
    | Throw e => (Throw e, s)
    end.
Proof.
  unfold calculateDiffScore, bind, capture_findFirst, ret.
  by destruct (db_find_capture w).
Qed.

Lemma persist_effect (w : World) (job : CaptureJob) (d : Staged)
  (s : St) (r : Res JobResult) (s' : St) :
  persist w job d s = (r, s') →
  let f := file_row job d (next_id s) in
  let c := capture_row job d
             (diff_against (latest_capture (screenId job) (captures s))
                           (images_imgHash (st_images d)))
             (S (next_id s)) in
  initialized s' = initialized s
  ∧ dom (screens s') = dom (screens s)
  ∧ match r with
    | Ok jr =>
        screenFiles s' = f :: screenFiles s ∧ captures s' = c :: captures s
        ∧ pages s' = Closed (st_page d) :: pages s
        ∧ fileId jr = next_id s ∧ captureId jr = S (next_id s)
        ∧ status_of s' (screenId job) = Some captured
    | Throw e =>
        pages s' = pages s
        ∧ ((screenFiles s' = screenFiles s ∧ captures s' = captures s)
           ∨ (screenFiles s' = f :: screenFiles s ∧ captures s' = captures s)
           ∨ (screenFiles s' = f :: screenFiles s
              ∧ captures s' = c :: captures s))
    end.
Proof.
  intros H f c. subst f c. revert H.
  unfold persist, bind at 1, screenFile_create.
  destruct (db_create_screenFile w) as [[]|e1].
  2:{ intros [= <- <-]. split_and!; auto. }
  unfold bind at 1. rewrite calculateDiffScore_run.
  destruct (db_find_capture w) as [[]|e2].
  2:{ intros [= <- <-]. simpl. split_and!; auto. }
  simpl captures. unfold bind at 1, capture_create.
  destruct (db_create_capture w) as [[]|e3].
  2:{ intros [= <- <-]. simpl. split_and!; auto. }
  simpl next_id. unfold bind at 1, screen_update.
  destruct (db_mark_captured w) as [[]|e4].
  2:{ intros [= <- <-]. simpl. split_and!; auto. }
  simpl screens. destruct (screens s !! screenId job) as [row|] eqn:Hrow.
  2:{ intros [= <- <-]. simpl. split_and!; auto. }
  unfold bind, closePage. destruct (page_close w) as [[]|e5].
  2:{ intros [= <- <-]. simpl. split_and!; auto.
      by apply dom_insert_lookup_L. }
  unfold ret. intros [= <- <-]. simpl. split_and!; auto.
  - by apply dom_insert_lookup_L.
  - unfold status_of. simpl. by rewrite lookup_insert_eq.
Qed.

Lemma on_failure_effect (w : World) (job : CaptureJob) (error : string)
  (s : St) (r : Res JobResult) (s' : St) :
  on_failure w job error s = (r, s') →
  quiet s s'
  ∧ (∃ e, r = Throw e)
  ∧ (db_mark_failed w = Ok tt → is_Some (screens s !! screenId job) →
     r = Throw error ∧ status_of s' (screenId job) = Some failed)
  ∧ (∀ e, db_mark_failed w = Throw e →
     r = Throw e ∧ status_of s' (screenId job) = status_of s (screenId job)).
Proof.
  intros H. split.
  { pose proof (stays_quiet_on_failure w job error s) as Hq.
    by rewrite H in Hq. }
  revert H. unfold on_failure, bind, console_write, screen_update, throw.
  simpl. destruct (db_mark_failed w) as [[]|e].
  - destruct (screens s !! screenId job) as [row|] eqn:Hrow.
    + intros [= <- <-]. split_and!; eauto; [|done].
      intros _ _. split; [done|]. unfold status_of. simpl.
      by rewrite lookup_insert_eq.
    + intros [= <- <-]. split_and!; eauto; [|done].
      intros _ [? [=]].
  - intros [= <- <-]. split_and!; eauto; [done|].
    intros ? [= <-]. done.
Qed.

(** ** The runs of [processJob] *)

(** The three ways a job can go once the worker is initialized: the
    rendering fails, the database phase fails, or the job succeeds. *)
Lemma processJob_cases {D : Digest} (w : World) (job : CaptureJob)
  (s : St) (r : Res JobResult) (s' : St) :
  initialized s = true →
  processJob w job s = (r, s') →
  (∃ e s1, render_and_upload w job s = (Throw e, s1)
           ∧ try_block w job s = (Throw e, s1)
           ∧ on_failure w job e s1 = (r, s'))
  ∨ (∃ d s1 e s2, render_and_upload w job s = (Ok d, s1)
                  ∧ persist w job d s1 = (Throw e, s2)
                  ∧ try_block w job s = (Throw e, s2)
                  ∧ on_failure w job e s2 = (r, s'))
  ∨ (∃ d s1 jr, render_and_upload w job s = (Ok d, s1)
                ∧ persist w job d s1 = (Ok jr, s') ∧ r = Ok jr).
Proof.
  intros Hinit. unfold processJob, try_catch, try_block, bind.
  rewrite Hinit.
  destruct (render_and_upload w job s) as [[d|e] s1] eqn:Hrender.
  - destruct (persist w job d s1) as [[jr|e] s2] eqn:Hpersist.
    + intros [= <- <-]. right. right. by exists d, s1, jr.
    + intros H. right. left. by exists d, s1, e, s2.
  - intros H. left. by exists e, s1.
Qed.

(** The rows a job leaves: none; the file row alone; or the file row and
    the capture row.  A successful job is in the last case. *)
Lemma processJob_rows {D : Digest} (w : World) (job : CaptureJob)
  (s : St) (r : Res JobResult) (s' : St) :
  processJob w job s = (r, s') →
  (screenFiles s' = screenFiles s ∧ captures s' = captures s
   ∧ ∃ e, r = Throw e)
  ∨ ∃ d s1, render_and_upload w job s = (Ok d, s1)
      ∧ ((screenFiles s' = file_row job d (next_id s) :: screenFiles s
          ∧ captures s' = captures s ∧ ∃ e, r = Throw e)
         ∨ (screenFiles s' = file_row job d (next_id s) :: screenFiles s
            ∧ captures s'
              = capture_row job d
                  (diff_against (latest_capture (screenId job) (captures s))
                                (images_imgHash (st_images d)))
                  (S (next_id s)) :: captures s
            ∧ ∀ jr, r = Ok jr →
                fileId jr = next_id s ∧ captureId jr = S (next_id s))).
Proof.
  destruct (initialized s) eqn:Hinit.
  2:{ unfold processJob. rewrite Hinit. intros [= <- <-]. left. eauto. }
  intros H. apply processJob_cases in H; [|done].
  destruct H as [(e & s1 & Hr & _ & Hf) | [(d & s1 & e & s2 & Hr & Hp & _ & Hf)
                                          | (d & s1 & jr & Hr & Hp & ->)]].
  - apply render_and_upload_effect in Hr as (_ & Hfiles & Hcaps & _).
    apply on_failure_effect in Hf as ((_ & Hf1 & Hf2 & _) & Hthrow & _).
    left. split_and!; [congruence.. | done].
  - pose proof Hr as Hr'.
    apply render_and_upload_effect in Hr as (_ & Hfiles & Hcaps & Hid & _).
    apply persist_effect in Hp as (_ & _ & _ & Hrows). simpl in Hrows.
    apply on_failure_effect in Hf as ((_ & Hf1 & Hf2 & _) & Hthrow & _).
    rewrite Hfiles, Hcaps, Hid in Hrows. rewrite <- Hf1, <- Hf2 in Hrows.
    destruct Hrows as [[? ?] | [[? ?] | [? ?]]].
    + left. by split_and!.
    + right. exists d, s1. split; [done|]. left. by split_and!.
    + right. exists d, s1. split; [done|]. right. split_and!; [done..|].
      intros jr ->. by destruct Hthrow.
  - pose proof Hr as Hr'.
    apply render_and_upload_effect in Hr as (_ & Hfiles & Hcaps & Hid & _).
    apply persist_effect in Hp as (_ & _ & Hf & Hc & _ & Hfid & Hcid & _).
    rewrite Hfiles, Hcaps, Hid in *.
    right. exists d, s1. split; [done|]. right. split_and!; [done..|].
    by intros ? [= <-].
Qed.

(** ** Change detection *)

Lemma diff_against_binary (previous : option Capture) (h : string) :
  diff_against previous h = 0%Q ∨ diff_against previous h = (1 # 2)%Q.
Proof.
  unfold diff_against. destruct previous as [p|]; [|by left].
  destruct (String.eqb (imgHash p) h); [by left | by right].
Qed.

Lemma latest_capture_cons (key : string) (c : Capture) (rows : list Capture) :
  capture_screenId c = key → latest_capture key (c :: rows) = Some c.
Proof.
  intros <-. unfold latest_capture. simpl. by rewrite String.eqb_refl.
Qed.

(** C10. [calculateDiffScore] returns 0 when the screen has no previous
    capture or the previous image hash is the new one, and 0.5 when the
    hashes differ; it returns nothing else when the query answers, and
    [processJob] keeps every stored capture at a score of 0 or 0.5. *)
Theorem diff_score_is_binary {D : Digest} (w : World) (job : CaptureJob)
  (s : St) (key h : string) :
  (db_find_capture w = Ok tt →
   ∃ score, calculateDiffScore w key h s = (Ok score, s)
     ∧ (score = 0%Q ∨ score = (1 # 2)%Q)
     ∧ (latest_capture key (captures s) = None → score = 0%Q)
     ∧ (∀ p, latest_capture key (captures s) = Some p →
             (imgHash p = h → score = 0%Q)
             ∧ (imgHash p ≠ h → score = (1 # 2)%Q)))
  ∧ (Forall binary_score (captures s) →
     Forall binary_score (captures (processJob w job s).2)).
Proof.
  split.
  - intros Hfind. rewrite calculateDiffScore_run, Hfind.
    eexists. split; [done|]. split; [apply diff_against_binary|]. split.
    + by intros ->.
    + intros p ->. simpl. split.
      * intros ->. by rewrite String.eqb_refl.
      * intros Hne. apply String.eqb_neq in Hne. by rewrite Hne.
  - intros Hall. destruct (processJob w job s) as [r s'] eqn:Hrun. simpl.
    apply processJob_rows in Hrun
      as [(_ & -> & _) | (d & s1 & _ & [(_ & -> & _) | (_ & -> & _)])];
      try done.
    constructor; [|done]. unfold binary_score. simpl.
    apply diff_against_binary.
Qed.

Lemma diff_score_is_binary_witness :
  Forall binary_score
    (captures (processJob (D := example_digest)
                 (example_world shot_b "<html></html>" (Ok tt) (Ok tt) (Ok tt))
                 example_job state_after_first).2).
Proof.
  apply (diff_score_is_binary (D := example_digest) _ _ _ "screen-id" "").
  vm_compute. repeat constructor.
Defined.

(** C4. For a screen without any capture, the score computed is 0; a job
    for it stores at most one capture, with score 0 and [changed] false,
    and a successful job stores exactly that one. *)
Theorem first_capture_is_baseline {D : Digest} (w : World)
  (job : CaptureJob) (s : St) :
  latest_capture (screenId job) (captures s) = None →
  (∀ h, db_find_capture w = Ok tt →
        calculateDiffScore w (screenId job) h s = (Ok 0%Q, s))
  ∧ ∀ r s', processJob w job s = (r, s') →
      (captures s' = captures s
       ∨ ∃ c, captures s' = c :: captures s
              ∧ diffScore c = 0%Q ∧ changed c = false)
      ∧ ∀ jr, r = Ok jr →
          ∃ c, captures s' = c :: captures s ∧ capture_id c = captureId jr
               ∧ capture_screenId c = screenId job
               ∧ diffScore c = 0%Q ∧ changed c = false.
Proof.
  intros Hnone. split.
  - intros h Hfind. by rewrite calculateDiffScore_run, Hfind, Hnone.
  - intros r s' Hrun.
    apply processJob_rows in Hrun
      as [(_ & Hc & e & ->) | (d & s1 & _ & [(_ & Hc & e & ->) | (_ & Hc & Hid)])].
    + split; [by left | intros ? [=]].
    + split; [by left | intros ? [=]].
    + rewrite Hnone in Hc. split.
      * right. eexists. by split.
      * intros jr ->. destruct (Hid jr eq_refl) as [_ Hcid].
        eexists. split; [exact Hc|]. by split_and!.
Qed.

Lemma first_capture_is_baseline_witness :
  ∃ c, captures state_after_first = [c]
       ∧ diffScore c = 0%Q ∧ changed c = false.
Proof.
  assert (Hnone : latest_capture (screenId example_job)
                    (captures example_state) = None) by reflexivity.
  pose proof (first_capture_is_baseline (D := example_digest)
    (example_world shot_a "<html></html>" (Ok tt) (Ok tt) (Ok tt))
    example_job example_state Hnone) as [_ H].
  destruct (H _ _ (surjective_pairing _)) as [_ H2].
  edestruct H2 as (c & Hc & _ & _ & Hd & Hch); [by vm_compute|].
  exists c. by split_and!.
Defined.

(** What every successful job stores: the two rows, for the screen of the
    job, both with the MD5 of the screenshot as image hash; the score is
    the one of that hash against the latest capture of the screen. *)
Lemma processJob_Ok_rows {D : Digest} (w : World) (job : CaptureJob)
  (s s' : St) (jr : JobResult) :
  processJob w job s = (Ok jr, s') →
  ∃ shot content f c,
    page_screenshot w = Ok shot ∧ page_content w = Ok content
    ∧ screenFiles s' = f :: screenFiles s ∧ captures s' = c :: captures s
    ∧ file_id f = fileId jr ∧ capture_id c = captureId jr
    ∧ file_screenId f = screenId job ∧ capture_screenId c = screenId job
    ∧ file_sha256 f = sha256_hex shot
    ∧ file_imgHash f = md5_hex shot ∧ imgHash c = md5_hex shot
    ∧ domHash c = sha256_hex_text content
    ∧ diffScore c
      = diff_against (latest_capture (screenId job) (captures s))
                     (md5_hex shot)
    ∧ changed c = false.
Proof.
  intros Hrun.
  apply processJob_rows in Hrun
    as [(_ & _ & e & [=]) | (d & s1 & Hr & [(_ & _ & e & [=]) | (Hf & Hc & Hid)])].
  apply render_and_upload_Ok_inv in Hr
    as (shot & content & Hshot & Hcontent & Hsha & Hmd5 & Hdom).
  destruct (Hid jr eq_refl) as [Hfid Hcid].
  exists shot, content. eexists. eexists.
  split; [done|]. split; [done|]. split; [exact Hf|]. split; [exact Hc|].
  simpl. rewrite Hmd5. by split_and!.
Qed.

Lemma latest_capture_other (key : string) (c : Capture) (rows : list Capture) :
  capture_screenId c ≠ key →
  latest_capture key (c :: rows) = latest_capture key rows.
Proof.
  intros Hne. unfold latest_capture. simpl.
  apply String.eqb_neq in Hne. by rewrite Hne.
Qed.

(** The jobs between leave the latest capture of the screen in place. *)
Lemma jobs_between_latest {D : Digest} (key : string) (s s' : St) :
  jobs_between key s s' →
  latest_capture key (captures s') = latest_capture key (captures s).
Proof.
  induction 1 as [s | w job s s' Hjob _ IH]; [done|].
  rewrite IH. destruct Hjob as [Hne | ->]; [|done].
  destruct (processJob w job s) as [r s1] eqn:Hrun. simpl.
  apply processJob_rows in Hrun
    as [(_ & -> & _) | (d & s0 & _ & [(_ & -> & _) | (_ & -> & _)])];
    try done.
  by apply latest_capture_other.
Qed.

Lemma unchanged_image_outcome {D : Digest} (w : World) (job : CaptureJob)
  (s : St) (shot : Buffer) (previous : Capture) (r : Res JobResult)
  (s' : St) :
  page_screenshot w = Ok shot →
  latest_capture (screenId job) (captures s) = Some previous →
  imgHash previous = md5_hex shot →
  processJob w job s = (r, s') →
  stores_unchanged s s' r.
Proof.
  intros Hshot Hlatest Hhash Hrun.
  assert (Hzero : ∀ d s0, render_and_upload w job s = (Ok d, s0) →
            diff_against (latest_capture (screenId job) (captures s))
                         (images_imgHash (st_images d)) = 0%Q).
  { intros d s0 Hr.
    apply render_and_upload_Ok_inv in Hr as (shot2 & _ & Hs2 & _ & _ & Hmd5 & _).
    assert (shot2 = shot) as -> by congruence.
    rewrite Hlatest, Hmd5. simpl. by rewrite Hhash, String.eqb_refl. }
  unfold stores_unchanged.
  apply processJob_rows in Hrun
    as [(_ & Hc & e & ->) | (d & s0 & Hr & [(_ & Hc & e & ->) | (_ & Hc & Hid)])].
  - split; [by left | intros ? [=]].
  - split; [by left | intros ? [=]].
  - rewrite (Hzero d s0 Hr) in Hc. split.
    + right. eexists. by split.
    + intros jr ->. destruct (Hid jr eq_refl) as [_ Hcid].
      eexists. split; [exact Hc|]. by split_and!.
Qed.

(** C5. When the latest capture of a screen came from the screenshot bytes
    that the next job for that screen renders, whatever the DOM the job
    reads, the capture it stores, if any, has score 0 and [changed] false,
    and it stores one if it succeeds.  This holds in any state whose latest
    capture of the screen has the MD5 of those bytes as image hash; in
    particular after a successful job that rendered those bytes, followed
    by any number of jobs that are for other screens or store no
    capture. *)
Theorem identical_screenshot_scores_zero {D : Digest} (w : World)
  (job : CaptureJob) (s : St) (shot : Buffer) :
  page_screenshot w = Ok shot →
  (∀ previous r s',
     latest_capture (screenId job) (captures s) = Some previous →
     imgHash previous = md5_hex shot →
     processJob w job s = (r, s') →
     stores_unchanged s s' r)
  ∧ (∀ w1 job1 s0 s1 jr1 r s',
       screenId job1 = screenId job →
       page_screenshot w1 = Ok shot →
       processJob w1 job1 s0 = (Ok jr1, s1) →
       jobs_between (screenId job) s1 s →
       processJob w job s = (r, s') →
       stores_unchanged s s' r).
Proof.
  intros Hshot. split.
  - intros previous r s' Hlatest Hhash Hrun.
    exact (unchanged_image_outcome w job s shot previous r s'
             Hshot Hlatest Hhash Hrun).
  - intros w1 job1 s0 s1 jr1 r s' Hkey Hshot1 Hrun1 Hbetween Hrun.
    apply processJob_Ok_rows in Hrun1
      as (shot' & _ & _ & c1 & Hs & _ & _ & Hc1 & _ & _ & _ & Hk1 & _ & _
          & Hh1 & _).
    assert (shot' = shot) as -> by congruence.
    apply jobs_between_latest in Hbetween. rewrite Hc1 in Hbetween.
    rewrite latest_capture_cons in Hbetween by congruence.
    exact (unchanged_image_outcome w job s shot c1 r s' Hshot Hbetween Hh1 Hrun).
Qed.

Lemma identical_screenshot_scores_zero_witness :
  ∃ c rest,
    captures
      (processJob (D := example_digest)
         (example_world shot_a "<html><p>new</p></html>"
            (Ok tt) (Ok tt) (Ok tt))
         example_job
         (processJob (D := example_digest)
            (example_world shot_b "<html></html>" (Ok tt) (Ok tt) (Ok tt))
            example_job_other
            (processJob (D := example_digest)
               (example_world shot_a "<html></html>" (Ok tt) (Ok tt) (Ok tt))
               example_job example_state_two).2).2).2
    = c :: rest
    ∧ capture_screenId c = "screen-id"
    ∧ diffScore c = 0%Q ∧ changed c = false.
Proof.
  pose proof (identical_screenshot_scores_zero (D := example_digest)
    (example_world shot_a "<html><p>new</p></html>" (Ok tt) (Ok tt) (Ok tt))
    example_job
    (processJob (D := example_digest)
       (example_world shot_b "<html></html>" (Ok tt) (Ok tt) (Ok tt))
       example_job_other
       (processJob (D := example_digest)
          (example_world shot_a "<html></html>" (Ok tt) (Ok tt) (Ok tt))
          example_job example_state_two).2).2
    shot_a eq_refl) as [_ H].
  edestruct (H (example_world shot_a "<html></html>" (Ok tt) (Ok tt) (Ok tt))
               example_job example_state_two) as [_ H2].
  - reflexivity.
  - reflexivity.
  - apply run_eq. vm_compute. reflexivity.
  - apply (between_job _
             (example_world shot_b "<html></html>" (Ok tt) (Ok tt) (Ok tt))
             example_job_other); [left; discriminate | apply between_none].
  - apply surjective_pairing.
  - edestruct H2 as (c & Hc & _ & Hd & Hch); [by vm_compute|].
    exists c. eexists. split; [exact Hc|]. split; [|done].
    revert Hc. vm_compute. by intros [= <-].
Defined.

(** C6, as amended.  Whatever the width and height of the job and whatever
    the DOM of the page, the score a successful job stores is read off the
    image hashes alone: 0 when the screen has no previous capture or the
    previous image hash is the MD5 of the new screenshot, 0.5 otherwise. *)
Theorem diff_score_reads_image_hashes_only {D : Digest} (w : World)
  (job : CaptureJob) (s s' : St) (jr : JobResult) :
  processJob w job s = (Ok jr, s') →
  ∃ shot c,
    page_screenshot w = Ok shot ∧ captures s' = c :: captures s
    ∧ match latest_capture (screenId job) (captures s) with
      | None => diffScore c = 0%Q
      | Some previous =>
          (imgHash previous = md5_hex shot → diffScore c = 0%Q)
          ∧ (imgHash previous ≠ md5_hex shot → diffScore c = (1 # 2)%Q)
      end.
Proof.
  intros Hrun.
  apply processJob_Ok_rows in Hrun
    as (shot & _ & _ & c & Hs & _ & _ & Hc & _ & _ & _ & _ & _ & _ & _ & _ & Hd & _).
  exists shot, c. split; [done|]. split; [done|]. rewrite Hd.
  destruct (latest_capture _ _) as [p|]; simpl; [|done]. split.
  - intros ->. by rewrite String.eqb_refl.
  - intros Hne. apply String.eqb_neq in Hne. by rewrite Hne.
Qed.

Lemma diff_score_reads_image_hashes_only_witness :
  ∃ c rest, captures_after_resize = c :: rest ∧ diffScore c = (1 # 2)%Q.
Proof.
  edestruct (diff_score_reads_image_hashes_only (D := example_digest)
    (example_world shot_b "<html></html>" (Ok tt) (Ok tt) (Ok tt))
    example_job_mobile state_after_first) as (shot & c & Hshot & Hc & Hd).
  { apply run_eq. vm_compute. reflexivity. }
  exists c, (captures state_after_first). split; [exact Hc|].
  injection Hshot as <-. vm_compute in Hd. apply Hd. discriminate.
Defined.

(** C6, as stated, fails: the second job of the example asks for the same
    screen at another width and height; the DOM hash is the one of the
    previous capture, and yet the score is 0.5, because the image differs. *)
Lemma viewport_change_has_no_dom_fallback :
  ∃ previous new,
    captures_after_resize = [new; previous]
    ∧ (width example_job_mobile, height example_job_mobile)
      ≠ (width example_job, height example_job)
    ∧ domHash new = domHash previous
    ∧ diffScore new = (1 # 2)%Q
    ∧ ¬ dom_hash_is_sole_signal previous new.
Proof.
  eexists. eexists. split; [by vm_compute|]. split; [discriminate|].
  split; [reflexivity|]. split; [reflexivity|].
  unfold dom_hash_is_sole_signal. simpl. intros [H _]. by apply H.
Qed.

(** ** Persistence *)

(** C7, as amended.  A successful job stores one file row and one capture
    row, for the same screen and with the same image hash; after any job,
    failed or not, a capture row is never stored without its file row. *)
Theorem capture_row_comes_with_file_row {D : Digest} (w : World)
  (job : CaptureJob) (s : St) (r : Res JobResult) (s' : St) :
  processJob w job s = (r, s') →
  (∀ jr, r = Ok jr →
     ∃ f c, screenFiles s' = f :: screenFiles s
            ∧ captures s' = c :: captures s
            ∧ file_id f = fileId jr ∧ capture_id c = captureId jr
            ∧ file_screenId f = capture_screenId c
            ∧ file_imgHash f = imgHash c)
  ∧ (captures s' = captures s
     ∨ ∃ f c, screenFiles s' = f :: screenFiles s
              ∧ captures s' = c :: captures s
              ∧ file_screenId f = capture_screenId c
              ∧ file_imgHash f = imgHash c).
Proof.
  intros Hrun.
  apply processJob_rows in Hrun
    as [(_ & Hc & e & ->) | (d & s1 & _ & [(_ & Hc & e & ->) | (Hf & Hc & Hid)])].
  - split; [intros ? [=] | by left].
  - split; [intros ? [=] | by left].
  - split.
    + intros jr ->. destruct (Hid jr eq_refl) as [Hfid Hcid].
      eexists. eexists. split; [exact Hf|]. split; [exact Hc|]. done.
    + right. eexists. eexists. split; [exact Hf|]. split; [exact Hc|]. done.
Qed.

Lemma capture_row_comes_with_file_row_witness :
  ∃ f c, screenFiles state_after_first = [f]
         ∧ captures state_after_first = [c]
         ∧ file_imgHash f = imgHash c.
Proof.
  edestruct (capture_row_comes_with_file_row (D := example_digest)
    (example_world shot_a "<html></html>" (Ok tt) (Ok tt) (Ok tt))
    example_job example_state) as [H _]; [apply surjective_pairing|].
  edestruct H as (f & c & Hf & Hc & _ & _ & _ & Hh); [by vm_compute|].
  exists f, c. by split_and!.
Defined.

(** C7, as stated, fails: when the insertion of the capture row throws,
    the file row inserted just before stays in its table. *)
Lemma file_row_without_capture_row :
  ¬ rows_atomic (D := example_digest)
      (example_world shot_a "<html></html>" (Ok tt)
         (Throw "PrismaClientKnownRequestError") (Ok tt))
      example_job example_state.
Proof.
  intros H.
  destruct (H _ _ (surjective_pairing _)) as [[Hf _] | (f & c & _ & Hc)].
  - vm_compute in Hf. discriminate.
  - vm_compute in Hc. discriminate.
Qed.

(** C1.  The code departs from the claim: where the screen has a previous
    capture with another image hash, a successful job stores a capture
    whose score, 0.5, is above the threshold 0.1 of the screen-detail
    route, and whose [changed] flag is false. *)
Theorem changed_flag_is_not_computed {D : Digest} (w : World)
  (job : CaptureJob) (s s' : St) (jr : JobResult) (shot : Buffer)
  (previous : Capture) :
  latest_capture (screenId job) (captures s) = Some previous →
  page_screenshot w = Ok shot →
  imgHash previous ≠ md5_hex shot →
  processJob w job s = (Ok jr, s') →
  ∃ c, captures s' = c :: captures s
       ∧ capture_id c = captureId jr
       ∧ diffScore c = (1 # 2)%Q
       ∧ (1 # 10 < diffScore c)%Q
       ∧ hasChanged (Some previous) c = true
       ∧ changed c = false.
Proof.
  intros Hprev Hshot Hne Hrun.
  apply processJob_Ok_rows in Hrun
    as (shot' & _ & _ & c & Hs & _ & _ & Hc & _ & Hid & _ & _ & _ & _ & _ & _ & Hd & Hch).
  assert (shot' = shot) as -> by congruence.
  rewrite Hprev in Hd. simpl in Hd. apply String.eqb_neq in Hne.
  rewrite Hne in Hd. exists c. split_and!; try done.
  - by rewrite Hd.
  - unfold hasChanged. by rewrite Hd.
Qed.

Lemma changed_flag_is_not_computed_witness :
  ∃ c rest, captures_after_resize = c :: rest
            ∧ (1 # 10 < diffScore c)%Q ∧ changed c = false.
Proof.
  edestruct (changed_flag_is_not_computed (D := example_digest)
    (example_world shot_b "<html></html>" (Ok tt) (Ok tt) (Ok tt))
    example_job_mobile state_after_first) as (c & Hc & _ & _ & Hd & _ & Hch).
  - by vm_compute.
  - reflexivity.
  - by vm_compute.
  - apply run_eq. vm_compute. reflexivity.
  - exists c, (captures state_after_first). by split_and!.
Defined.

(** ** Failure containment *)

Lemma try_block_dom {D : Digest} (w : World) (job : CaptureJob)
  (s : St) (r : Res JobResult) (s' : St) :
  try_block w job s = (r, s') → dom (screens s') = dom (screens s).
Proof.
  unfold try_block, bind.
  destruct (render_and_upload w job s) as [[d|e] s1] eqn:Hr; intros H.
  - apply render_and_upload_effect in Hr as (_ & _ & _ & _ & Hd & _).
    apply persist_effect in H as (_ & Hd' & _). congruence.
  - injection H as <- <-.
    by apply render_and_upload_effect in Hr as (_ & _ & _ & _ & Hd & _).
Qed.

(** C2, as amended.  When the [try] block of a job fails at any stage, the
    screen row exists and the status write of the [catch] block succeeds,
    [processJob] leaves the page [failed] and throws the error of the
    failing stage; when the failure is at a stage up to the upload to S3,
    the job has added no row to either table. *)
Theorem failed_job_marks_page_failed {D : Digest} (w : World)
  (job : CaptureJob) (s : St) :
  initialized s = true →
  is_Some (screens s !! screenId job) →
  db_mark_failed w = Ok tt →
  (∀ e s1, try_block w job s = (Throw e, s1) →
     ∃ s', processJob w job s = (Throw e, s')
           ∧ status_of s' (screenId job) = Some failed)
  ∧ (∀ e s1, render_and_upload w job s = (Throw e, s1) →
     ∃ s', processJob w job s = (Throw e, s')
           ∧ status_of s' (screenId job) = Some failed
           ∧ screenFiles s' = screenFiles s
           ∧ captures s' = captures s).
Proof.
  intros Hinit Hrow Hfailed.
  assert (Hany : ∀ e s1, try_block w job s = (Throw e, s1) →
    ∃ s', processJob w job s = (Throw e, s')
          ∧ status_of s' (screenId job) = Some failed ∧ quiet s1 s').
  { intros e s1 Htry. unfold processJob, try_catch. rewrite Hinit, Htry.
    destruct (on_failure w job e s1) as [r s'] eqn:Hf.
    apply on_failure_effect in Hf as (Hq & _ & Hok & _).
    destruct Hok as [-> Hst]; [done | | by exists s'].
    apply try_block_dom in Htry. apply elem_of_dom. rewrite Htry.
    by apply elem_of_dom. }
  split.
  - intros e s1 Htry. destruct (Hany e s1 Htry) as (s' & ? & ? & _). eauto.
  - intros e s1 Hr.
    assert (Htry : try_block w job s = (Throw e, s1)).
    { unfold try_block, bind. by rewrite Hr. }
    destruct (Hany e s1 Htry) as (s' & Hrun & Hst & (_ & Hf & Hc & _)).
    apply render_and_upload_effect in Hr as (_ & Hf1 & Hc1 & _).
    exists s'. split_and!; [done | done | congruence..].
Qed.

Lemma failed_job_marks_page_failed_witness :
  ∃ e s',
    processJob (D := example_digest)
      (example_world shot_a "<html></html>" goto_timeout (Ok tt) (Ok tt))
      example_job example_state = (Throw e, s')
    ∧ status_of s' "screen-id" = Some failed
    ∧ screenFiles s' = [] ∧ captures s' = [].
Proof.
  edestruct (failed_job_marks_page_failed (D := example_digest)
    (example_world shot_a "<html></html>" goto_timeout (Ok tt) (Ok tt))
    example_job example_state) as [_ H].
  - reflexivity.
  - by eexists.
  - reflexivity.
  - edestruct H as (s' & Hrun & Hst & Hf & Hc).
    + apply run_eq. vm_compute. reflexivity.
    + eexists. exists s'. by split_and!.
Defined.

(** C2, as stated, fails twice over.  When the insertion of the capture
    row throws, the file row stays; and when the navigation times out and
    the status write of the [catch] block throws as well, the page stays
    [processing]. *)
Lemma failure_is_not_contained :
  ¬ failure_contained (D := example_digest)
      (example_world shot_a "<html></html>" (Ok tt)
         (Throw "PrismaClientKnownRequestError") (Ok tt))
      example_job example_state
  ∧ ¬ failure_contained (D := example_digest)
        (example_world shot_a "<html></html>" goto_timeout (Ok tt)
           (Throw "Can't reach database server"))
        example_job example_state.
Proof.
  split; intros H.
  - edestruct H as (_ & Hf & _);
      [reflexivity | by eexists | apply run_eq; vm_compute; reflexivity |].
    vm_compute in Hf. discriminate.
  - edestruct H as (Hst & _);
      [reflexivity | by eexists | apply run_eq; vm_compute; reflexivity |].
    vm_compute in Hst. discriminate.
Qed.

(** ** The browser page of a job *)

(** C3.  The code departs from the claim: once the page of a job is opened,
    a job that succeeds closes it once, and a job that fails, at whatever
    stage, never closes it. *)
Theorem failed_job_leaves_page_open {D : Digest} (w : World)
  (job : CaptureJob) (s : St) (r : Res JobResult) (s' : St) :
  initialized s = true →
  is_Some (screens s !! screenId job) →
  db_mark_processing w = Ok tt →
  browser_newPage w = Ok tt →
  processJob w job s = (r, s') →
  match r with
  | Ok _ => pages s' = Closed (next_page s) :: Opened (next_page s) :: pages s
  | Throw _ => pages s' = Opened (next_page s) :: pages s
  end.
Proof.
  intros Hinit [row Hrow] Hmark Hnew Hrun.
  assert (Hopen : ∀ r1 s1, render_and_upload w job s = (r1, s1) →
            pages s1 = Opened (next_page s) :: pages s
            ∧ ∀ d, r1 = Ok d → st_page d = next_page s).
  { intros r1 s1 Hr.
    apply render_and_upload_effect in Hr as (_ & _ & _ & _ & _ & [Hno | Hyes]).
    - destruct Hno as (_ & e & _ & [He | [He | He]]); congruence.
    - tauto. }
  apply processJob_cases in Hrun; [|done].
  destruct Hrun as [(e & s1 & Hr & _ & Hf) | [(d & s1 & e & s2 & Hr & Hp & _ & Hf)
                                             | (d & s1 & jr & Hr & Hp & ->)]].
  - apply Hopen in Hr as [Hp _].
    apply on_failure_effect in Hf as ((_&_&_&_&_&Hq&_) & [e' ->] & _).
    congruence.
  - apply Hopen in Hr as [Hp1 _].
    apply persist_effect in Hp as (_ & _ & Hp2 & _).
    apply on_failure_effect in Hf as ((_&_&_&_&_&Hq&_) & [e' ->] & _).
    congruence.
  - apply Hopen in Hr as [Hp1 Hpage].
    apply persist_effect in Hp as (_ & _ & _ & _ & Hp2 & _).
    rewrite Hp2, Hp1, (Hpage d eq_refl). done.
Qed.

Lemma failed_job_leaves_page_open_witness :
  pages (processJob (D := example_digest)
           (example_world shot_a "<html></html>" goto_timeout (Ok tt) (Ok tt))
           example_job example_state).2 = [Opened 0].
Proof.
  pose proof (failed_job_leaves_page_open (D := example_digest)
    (example_world shot_a "<html></html>" goto_timeout (Ok tt) (Ok tt))
    example_job example_state
    (Throw "page.goto: Timeout 30000ms exceeded")) as H.
  simpl in H. apply H.
  - reflexivity.
  - by eexists.
  - reflexivity.
  - reflexivity.
  - apply run_eq. vm_compute. reflexivity.
Defined.

(** ** PII scanner *)

Lemma length_chars (s : string) : length (chars s) = String.length s.
Proof. unfold chars. induction s as [|c s IH]; simpl; congruence. Qed.

Lemma chars_nonempty (s : string) : s ≠ "" → chars s ≠ [].
Proof. by destruct s. Qed.

Lemma head_app_nonempty {A : Type} (l1 l2 : list A) :
  l1 ≠ [] → head (l1 ++ l2) = head l1.
Proof. by destruct l1. Qed.

Lemma last_app_nonempty {A : Type} (l1 l2 : list A) :
  l2 ≠ [] → last (l1 ++ l2) = last l2.
Proof.
  intros H. rewrite last_app. destruct l2 as [|x l2] using rev_ind; [done|].
  by rewrite last_snoc.
Qed.

Lemma one_matches (x : ascii) (before after : list ascii) :
  item_matches (one (is_char x)) before [x] after.
Proof.
  simpl. split_and!.
  - constructor; [|done]. apply Ascii.eqb_refl.
  - done.
  - by intros ? [= <-].
Qed.

Lemma at_least_matches (n : nat) (cls : ascii → bool)
  (before m after : list ascii) :
  Forall (λ c, cls c = true) m → n ≤ length m →
  item_matches (at_least n cls) before m after.
Proof. intros Hall Hlen. simpl. split_and!; [done | done | intros ? [=]]. Qed.

(** An email-shaped part of the text is a match of the email pattern. *)
Lemma email_shaped_matches (text : string) :
  email_shaped_in text → pattern_matches email_pattern text.
Proof.
  intros (pre & loc & dom & tld & post & -> & Hloc & Hall_loc & Hdom
          & Hall_dom & Hlen & Hall_tld & Hb1 & Hb2).
  apply chars_nonempty in Hloc. apply chars_nonempty in Hdom.
  rewrite <- length_chars in Hlen.
  assert (Htld : chars tld ≠ []).
  { intros H. rewrite H in Hlen. simpl in Hlen. lia. }
  exists (chars pre),
    (chars loc ++ ["@"%char] ++ chars dom ++ ["."%char] ++ chars tld),
    (chars post).
  split.
  { rewrite !chars_app. change (chars "@") with ["@"%char].
    change (chars ".") with ["."%char]. by rewrite <- !app_assoc. }
  unfold email_pattern.
  exists [], (chars loc ++ ["@"%char] ++ chars dom ++ ["."%char] ++ chars tld).
  split; [done|]. split.
  { split; [done|]. by rewrite <- app_assoc, head_app_nonempty. }
  exists (chars loc), (["@"%char] ++ chars dom ++ ["."%char] ++ chars tld).
  split; [done|]. split.
  { apply at_least_matches; [done|]. destruct (chars loc); [done | simpl; lia]. }
  exists ["@"%char], (chars dom ++ ["."%char] ++ chars tld).
  split; [done|]. split; [apply one_matches|].
  exists (chars dom), (["."%char] ++ chars tld).
  split; [done|]. split.
  { apply at_least_matches; [done|]. destruct (chars dom); [done | simpl; lia]. }
  exists ["."%char], (chars tld).
  split; [done|]. split; [apply one_matches|].
  exists (chars tld), [].
  split; [by rewrite app_nil_r|]. split; [by apply at_least_matches|].
  exists [], []. split; [done|]. split; [|done].
  split; [done|]. simpl. by rewrite last_app_nonempty.
Qed.

Lemma detectAndBlurPII_run (ocr : OcrReplies) (image : Buffer) (s s1 : St)
  (text : string) :
  extractText ocr image s = (Ok text, s1) →
  ∃ s', detectAndBlurPII ocr image s = (Ok (hasPII text), s').
Proof.
  intros H. unfold detectAndBlurPII, bind. rewrite H.
  destruct (hasPII text); simpl; eauto.
Qed.


(** * Further properties of the worker *)

(** ** Best-effort steps *)

Lemma cookie_loop_run (w : World) (selectors : list string) (s : St) :
  cookie_loop w selectors s = (Ok tt, s).
Proof.
  induction selectors as [|selector rest IH]; [done|].
  simpl. unfold bind, try_catch, ask, ret.
  destruct (page_query w selector) as [[]|]; [|exact IH | exact IH].
  destruct (element_click w selector) as [[]|]; [|exact IH].
  destruct (page_waitForTimeout w 1000) as [[]|]; [done | exact IH].
Qed.

(** X1.  Whatever the page answers to the selector queries, the clicks and the
    waits, [handleCookieBanners] returns normally and writes nothing to the
    database, the page trace or the console. *)
Theorem handleCookieBanners_never_throws (w : World) (page : nat) (s : St) :
  handleCookieBanners w page s = (Ok tt, s).
Proof.
  unfold handleCookieBanners, try_catch. by rewrite cookie_loop_run.
Qed.

(** X2.  Whatever the page answers to the two scrolls and the two waits,
    [scrollToLoadContent] returns normally and writes nothing to the
    database, the page trace or the console. *)
Theorem scrollToLoadContent_never_throws (w : World) (page : nat) (s : St) :
  scrollToLoadContent w page s = (Ok tt, s).
Proof.
  unfold scrollToLoadContent, try_catch, bind, ask, ret.
  destruct (page_evaluate_scroll w) as [[]|]; [|done].
  destruct (page_waitForTimeout w 1000) as [[]|]; [|done].
  by destruct (page_waitForTimeout w 500) as [[]|].
Qed.

Lemma header_or_null_Some (headers : gmap string string) (name v : string) :
  header_or_null headers name = Some v ↔ headers !! name = Some v ∧ v ≠ "".
Proof.
  unfold header_or_null. destruct (headers !! name) as [[|c x]|]; split;
    try done; try (by intros [[=] _]).
  - intros [[= <-] H]. done.
  - intros [= <-]. done.
  - by intros [[= <-] _].
Qed.

(** X3.  [getEtag] and [getLastModified] never throw and change nothing: each
    returns the value of its header when the response arrives and carries
    a non-empty value for it, and null in every other case (no response,
    header absent, header empty). *)
Theorem cache_validators_never_throw (w : World) (page : nat) (s : St) :
  (∃ v, getEtag w page s = (Ok v, s)
        ∧ ∀ x, v = Some x
               ↔ ∃ h, etag_response w = Ok h ∧ h !! "etag" = Some x ∧ x ≠ "")
  ∧ (∃ v, getLastModified w page s = (Ok v, s)
          ∧ ∀ x, v = Some x
                 ↔ ∃ h, lastModified_response w = Ok h
                        ∧ h !! "last-modified" = Some x ∧ x ≠ "").
Proof.
  split.
  - unfold getEtag, try_catch, bind, ask, ret.
    destruct (etag_response w) as [h|e]; eexists; (split; [done|]); intros x.
    + rewrite header_or_null_Some. split.
      * intros [? ?]. by exists h.
      * by intros (? & [= <-] & ? & ?).
    + split; [done | by intros (? & [=] & _)].
  - unfold getLastModified, try_catch, bind, ask, ret.
    destruct (lastModified_response w) as [h|e]; eexists; (split; [done|]);
      intros x.
    + rewrite header_or_null_Some. split.
      * intros [? ?]. by exists h.
      * by intros (? & [= <-] & ? & ?).
    + split; [done | by intros (? & [=] & _)].
Qed.

(** ** Text recognition *)

(** X4.  [extractText] leaves the state alone and returns a text exactly when
    the worker is created, the recognition answers with that text and the
    worker terminates; an error of [terminate] replaces the result of the
    recognition, be it a text or an error. *)
Theorem extractText_outcome (ocr : OcrReplies) (image : Buffer) (s : St)
  (r : Res string) (s' : St) :
  extractText ocr image s = (r, s') →
  s' = s
  ∧ (∀ text, r = Ok text
             ↔ createWorker ocr = Ok tt ∧ recognize ocr image = Ok text
               ∧ terminate ocr = Ok tt)
  ∧ (∀ e, createWorker ocr = Throw e → r = Throw e)
  ∧ (∀ e, createWorker ocr = Ok tt → terminate ocr = Throw e → r = Throw e).
Proof.
  unfold extractText, bind, try_finally, ask.
  destruct (createWorker ocr) as [[]|e0].
  - destruct (terminate ocr) as [[]|e1]; intros [= <- <-].
    + split; [done|]. split_and!; try done. intros text. split.
      * by intros ->.
      * by intros (_ & -> & _).
    + split; [done|]. split_and!; try done.
      * intros text. split; [done | by intros (_ & _ & [=])].
      * by intros ? _ [= <-].
  - intros [= <- <-]. split; [done|]. split_and!; try done.
    + intros text. split; [done | by intros ([=] & _)].
    + by intros ? [= <-].
Qed.

Lemma extractText_outcome_witness :
  createWorker (ocr_ok "Apple Store") = Ok tt
  ∧ recognize (ocr_ok "Apple Store") shot_a = Ok "Apple Store"
  ∧ terminate (ocr_ok "Apple Store") = Ok tt.
Proof.
  destruct (extractText_outcome (ocr_ok "Apple Store") shot_a example_state
              (Ok "Apple Store") example_state) as (_ & H & _).
  - reflexivity.
  - by apply H.
Defined.

(** ** Upload keys *)

(** A needle without the separator occurs in [a ++ sep :: b] exactly when
    it occurs in [a] or in [b]. *)
Lemma index_in_separated (needle a b : list ascii) (sep : ascii) :
  needle ≠ [] → sep ∉ needle →
  index_in needle (a ++ sep :: b) = index_in needle a || index_in needle b.
Proof.
  intros Hne Hsep. apply eq_true_iff_eq.
  rewrite orb_true_iff, !index_in_spec. split.
  - intros (pre & post & H). apply app_eq_app in H as [l [[Ha H] | [Hpre H]]].
    + apply app_eq_app in H as [l' [[Hn H] | [Hl H]]].
      * destruct l' as [|x l'].
        { left. exists pre, []. rewrite app_nil_r in *. by subst. }
        simpl in H. injection H as <- _. exfalso. apply Hsep. subst needle.
        set_solver.
      * left. exists pre, l'. by subst.
    + destruct l as [|x l]; simpl in H.
      * destruct needle as [|y needle]; [done|]. simpl in H.
        injection H as <- _. exfalso. apply Hsep. set_solver.
      * injection H as _ ->. right. by exists l, post.
  - intros [(pre & post & ->) | (pre & post & ->)].
    + exists pre, (post ++ sep :: b). by rewrite <- !app_assoc.
    + exists (a ++ sep :: pre), post. by rewrite <- !app_assoc.
Qed.

Lemma includes_separated (a b needle : string) :
  needle ≠ "" → "/"%char ∉ chars needle →
  includes (a +:+ "/" +:+ b) needle = includes a needle || includes b needle.
Proof.
  intros Hne Hsep. unfold includes. rewrite !chars_app.
  change (chars "/") with ["/"%char]. simpl.
  apply index_in_separated; [|done]. by destruct needle.
Qed.

Lemma key_mentions (job : CaptureJob) (file x : string) :
  x ≠ "" → "/"%char ∉ chars x →
  includes (key_prefix job +:+ String "/" file) x
  = includes "screenshots" x || (ids_mention job x || includes file x).
Proof.
  intros Hne Hsep. assert (Hne' : chars x ≠ []) by by destruct x.
  unfold ids_mention, key_prefix, includes. rewrite !chars_app.
  change (chars "screenshots/") with (chars "screenshots" ++ ["/"%char]).
  change (chars "/") with ["/"%char].
  change (chars (String "/" file)) with ("/"%char :: chars file).
  rewrite <- !app_assoc, <- !cons_middle.
  rewrite !index_in_separated by done. by rewrite !orb_assoc.
Qed.

(** The run of [uploadToS3], send by send. *)
Lemma uploadToS3_run (w : World) (images : ProcessedImages)
  (job : CaptureJob) (s : St) :
  uploadToS3 w images job s
  = (match s3_send w (env_S3_BUCKET w) (key_prefix job +:+ "/original.webp")
             (webp images) "image/webp" with
     | Throw e => Throw e
     | Ok _ =>
       match s3_send w (env_S3_BUCKET w) (key_prefix job +:+ "/original.png")
               (png images) "image/png" with
       | Throw e => Throw e
       | Ok _ =>
         match s3_send w (env_S3_BUCKET w) (key_prefix job +:+ "/thumb.webp")
                 (thumb images) "image/webp" with
         | Throw e => Throw e
         | Ok _ => Ok (expected_urls w job)
         end
       end
     end, s).
Proof.
  unfold uploadToS3. fold (key_prefix job). simpl. unfold bind, ask.
  destruct (s3_send w _ (key_prefix job +:+ "/original.webp") _ _) as [[]|];
    [|done].
  destruct (s3_send w _ (key_prefix job +:+ "/original.png") _ _) as [[]|];
    [|done].
  destruct (s3_send w _ (key_prefix job +:+ "/thumb.webp") _ _) as [[]|];
    [|done].
  change (key_prefix job +:+ "/original.webp")
    with (key_prefix job +:+ String "/" "original.webp").
  change (key_prefix job +:+ "/original.png")
    with (key_prefix job +:+ String "/" "original.png").
  change (key_prefix job +:+ "/thumb.webp")
    with (key_prefix job +:+ String "/" "thumb.webp").
  rewrite !key_mentions by (done || by vm_compute; set_solver).
  change (includes "screenshots" "thumb") with false.
  change (includes "screenshots" "webp") with false.
  change (includes "original.webp" "thumb") with false.
  change (includes "original.webp" "webp") with true.
  change (includes "original.png" "thumb") with false.
  change (includes "original.png" "webp") with false.
  change (includes "thumb.webp" "thumb") with true.
  rewrite !orb_false_l, !orb_false_r, !orb_true_r.
  unfold ret, expected_urls, cdn_url.
  destruct (ids_mention job "thumb"); [reflexivity|].
  destruct (ids_mention job "webp"); reflexivity.
Qed.

(** X5.  When the three uploads succeed, [uploadToS3] returns an object whose
    key [thumb] always holds the URL of the thumbnail.  The keys [webp]
    and [png] hold the URLs of their files only if neither id of the job
    contains [thumb] or [webp]: an id that contains [thumb] files all three
    uploads under [thumb], and otherwise an id that contains [webp] files
    the PNG under [webp] and leaves [png] undefined. *)
Theorem uploadToS3_urls (w : World) (images : ProcessedImages)
  (job : CaptureJob) (s : St) :
  (∀ key body contentType,
     s3_send w (env_S3_BUCKET w) key body contentType = Ok tt) →
  uploadToS3 w images job s
  = (Ok (if ids_mention job "thumb"
         then {[ "thumb" := cdn_url w job "thumb.webp" ]}
         else if ids_mention job "webp"
         then <[ "thumb" := cdn_url w job "thumb.webp" ]>
                {[ "webp" := cdn_url w job "original.png" ]}
         else <[ "thumb" := cdn_url w job "thumb.webp" ]>
                (<[ "png" := cdn_url w job "original.png" ]>
                   {[ "webp" := cdn_url w job "original.webp" ]})), s).
Proof.
  intros Hsend. by rewrite uploadToS3_run, !Hsend.
Qed.

Lemma uploadToS3_urls_witness :
  ∃ urls,
    uploadToS3
      (example_world shot_a "<html></html>" (Ok tt) (Ok tt) (Ok tt))
      {| png := shot_a; webp := shot_a; thumb := shot_a; sha256 := "";
         images_imgHash := "" |}
      {| job_id := "j"; url := "https://www.airbnb.com/rooms/1";
         breakpoint := desktop; width := 1440; height := 900;
         withContent := false; priority := 5; siteId := "site-thumbtack";
         screenId := "screen-1" |}
      example_state = (Ok urls, example_state)
    ∧ urls !! "webp" = None ∧ urls !! "png" = None
    ∧ is_Some (urls !! "thumb").
Proof.
  eexists. split.
  - by apply uploadToS3_urls.
  - vm_compute. split_and!; [done | done | by eexists].
Defined.

(** ** Relations kept by every step *)

Section Keeps.

Context (R : St → St → Prop) `{!PreOrder R}.
Hypothesis console_kept : ∀ line, keeps R (console_write line).

Lemma keeps_ret {A : Type} (a : A) : keeps R (ret a).
Proof. intros s. reflexivity. Qed.

Lemma keeps_throw {A : Type} (e : string) : keeps R (@throw A e).
Proof. intros s. reflexivity. Qed.

Lemma keeps_ask {A : Type} (reply : Res A) : keeps R (ask reply).
Proof. intros s. reflexivity. Qed.

Lemma keeps_bind {A B : Type} (m : M A) (k : A → M B) :
  keeps R m → (∀ a, keeps R (k a)) → keeps R (bind m k).
Proof.
  intros Hm Hk s. unfold bind. specialize (Hm s).
  destruct (m s) as [[a|e] s1]; simpl in *; [|done].
  etrans; [exact Hm | apply Hk].
Qed.

Lemma keeps_try_catch {A : Type} (m : M A) (handler : string → M A) :
  keeps R m → (∀ e, keeps R (handler e)) → keeps R (try_catch m handler).
Proof.
  intros Hm Hh s. unfold try_catch. specialize (Hm s).
  destruct (m s) as [[a|e] s1]; simpl in *; [done|].
  etrans; [exact Hm | apply Hh].
Qed.

Lemma keeps_try_finally {A : Type} (m : M A) (cleanup : M unit) :
  keeps R m → keeps R cleanup → keeps R (try_finally m cleanup).
Proof.
  intros Hm Hc s. unfold try_finally. specialize (Hm s).
  destruct (m s) as [r s1]. specialize (Hc s1).
  destruct (cleanup s1) as [[[]|e] s2]; simpl in *; by etrans.
Qed.

Lemma keeps_capture_findFirst (reply : Res unit) (key : string) :
  keeps R (capture_findFirst reply key).
Proof.
  intros s. unfold capture_findFirst. destruct reply; reflexivity.
Qed.

Lemma keeps_extractText (ocr : OcrReplies) (image : Buffer) :
  keeps R (extractText ocr image).
Proof.
  unfold extractText. apply keeps_bind; [apply keeps_ask | intros _].
  apply keeps_try_finally; apply keeps_ask.
Qed.

Lemma keeps_detectAndBlurPII (ocr : OcrReplies) (image : Buffer) :
  keeps R (detectAndBlurPII ocr image).
Proof.
  unfold detectAndBlurPII.
  apply keeps_bind; [apply keeps_extractText | intros text].
  apply keeps_bind; [|intros _; apply keeps_ret].
  destruct (hasPII text); [apply console_kept | apply keeps_ret].
Qed.

Lemma keeps_upload_loop (w : World) (bucket : string)
  (uploads : list (string * Buffer * string)) (urls : gmap string string) :
  keeps R (upload_loop w bucket uploads urls).
Proof.
  revert urls. induction uploads as [|u rest IH]; intros urls; simpl.
  - apply keeps_ret.
  - apply keeps_bind; [apply keeps_ask | intros _; apply IH].
Qed.

Lemma keeps_render_on_page {D : Digest} (w : World) (job : CaptureJob)
  (page : nat) :
  keeps R (render_on_page w job page).
Proof.
  unfold render_on_page.
  apply keeps_bind; [apply keeps_ask | intros _].
  apply keeps_bind; [apply keeps_ask | intros _].
  apply keeps_bind.
  { apply keeps_try_catch; [|intros _; apply keeps_ret].
    intros s. rewrite cookie_loop_run. reflexivity. }
  intros _. apply keeps_bind.
  { apply keeps_try_catch; [|intros _; apply keeps_ret].
    repeat (apply keeps_bind; [apply keeps_ask | intros _]).
    apply keeps_ret. }
  intros _. apply keeps_bind; [apply keeps_ask | intros _].
  apply keeps_bind; [apply keeps_ask | intros shot].
  apply keeps_bind.
  { apply keeps_try_catch; [|intros _; apply keeps_ret].
    apply keeps_bind; [apply keeps_ask | intros ?; apply keeps_ret]. }
  intros etag'. apply keeps_bind.
  { apply keeps_try_catch; [|intros _; apply keeps_ret].
    apply keeps_bind; [apply keeps_ask | intros ?; apply keeps_ret]. }
  intros lastModified'. apply keeps_bind.
  { apply keeps_bind; [apply keeps_ask | intros ?; apply keeps_ret]. }
  intros domHash'. apply keeps_bind.
  { unfold processImage.
    apply keeps_bind; [apply keeps_ask | intros ?].
    apply keeps_bind; [apply keeps_ask | intros ?; apply keeps_ret]. }
  intros images. apply keeps_bind.
  { destruct (withContent job); [|apply keeps_ret].
    apply keeps_bind; [apply keeps_extractText | intros ?; apply keeps_ret]. }
  intros ocrText'. apply keeps_bind; [apply keeps_detectAndBlurPII|].
  intros pii. apply keeps_bind; [apply keeps_upload_loop|].
  intros urls'. apply keeps_ret.
Qed.

(** The whole job keeps a relation that its six kinds of write keep. *)
Lemma keeps_processJob {D : Digest} (w : World) (job : CaptureJob) :
  (∀ reply data, keeps R (screen_update reply (screenId job) data)) →
  keeps R (newPage w) →
  (∀ page, keeps R (closePage w page)) →
  (∀ reply data, keeps R (screenFile_create reply data)) →
  (∀ reply data, keeps R (capture_create reply data)) →
  keeps R (processJob w job).
Proof.
  intros Hupd Hnew Hclose Hfile Hcap s. unfold processJob.
  destruct (initialized s); [|reflexivity].
  apply keeps_try_catch.
  - unfold try_block. apply keeps_bind.
    + unfold render_and_upload.
      apply keeps_bind; [apply Hupd | intros _].
      apply keeps_bind; [apply Hnew | intros page].
      apply keeps_render_on_page.
    + intros d. unfold persist.
      apply keeps_bind; [apply Hfile | intros f].
      apply keeps_bind.
      { unfold calculateDiffScore.
        apply keeps_bind; [apply keeps_capture_findFirst | intros ?].
        apply keeps_ret. }
      intros score. apply keeps_bind; [apply Hcap | intros c].
      apply keeps_bind; [apply Hupd | intros _].
      apply keeps_bind; [apply Hclose | intros _; apply keeps_ret].
  - intros e. unfold on_failure.
    apply keeps_bind; [apply console_kept | intros _].
    apply keeps_bind; [apply Hupd | intros _; apply keeps_throw].
Qed.

End Keeps.

Lemma others_same_preorder (key : string) : PreOrder (others_same key).
Proof.
  split.
  - by intros s k _.
  - intros s1 s2 s3 H12 H23 k Hk. by rewrite H23, H12.
Qed.

(** X8.  A job reads and writes the row of its own screen only: the row of
    every other screen is after the job what it was before, whether the
    job succeeds or fails. *)
Theorem processJob_leaves_other_screens {D : Digest} (w : World)
  (job : CaptureJob) (s : St) (key : string) :
  key ≠ screenId job →
  screens (processJob w job s).2 !! key = screens s !! key.
Proof.
  intros Hkey.
  pose proof (others_same_preorder (screenId job)) as Hpre.
  apply (keeps_processJob (others_same (screenId job))); try done.
  - intros reply data s0 k Hk. unfold screen_update.
    destruct reply as [[]|]; [|done].
    destruct (screens s0 !! screenId job); [|done].
    simpl. by rewrite lookup_insert_ne.
  - intros s0 k Hk. unfold newPage. by destruct (browser_newPage w).
  - intros page s0 k Hk. unfold closePage. by destruct (page_close w).
  - intros reply data s0 k Hk. unfold screenFile_create. by destruct reply.
  - intros reply data s0 k Hk. unfold capture_create. by destruct reply.
Qed.

Lemma processJob_leaves_other_screens_witness :
  screens (processJob (D := example_digest)
             (example_world shot_a "<html></html>" (Ok tt) (Ok tt) (Ok tt))
             example_job
             (with_screens example_state
                (<[ "other-screen" := pending_screen ]>
                   (screens example_state)))).2 !! "other-screen"
  = Some pending_screen.
Proof.
  rewrite (processJob_leaves_other_screens (D := example_digest)) by done.
  reflexivity.
Defined.

(** ** Jobs for a screen that has no row *)

(** X10.  When the screen of the job has no row, the first status write throws:
    the job fails before any browser page is opened, the status write of
    the [catch] block fails as well, and nothing but the console changes. *)
Theorem processJob_unknown_screen {D : Digest} (w : World) (job : CaptureJob)
  (s : St) :
  initialized s = true →
  screens s !! screenId job = None →
  ∃ e s', processJob w job s = (Throw e, s')
          ∧ pages s' = pages s ∧ screens s' = screens s
          ∧ screenFiles s' = screenFiles s ∧ captures s' = captures s.
Proof.
  intros Hinit Hnone.
  unfold processJob, try_catch, try_block, render_and_upload, bind.
  rewrite Hinit. unfold screen_update at 1. rewrite Hnone.
  assert (Hhandler : ∀ e, ∃ e' s', on_failure w job e s = (Throw e', s')
            ∧ pages s' = pages s ∧ screens s' = screens s
            ∧ screenFiles s' = screenFiles s ∧ captures s' = captures s).
  { intros e. unfold on_failure, bind, console_write, screen_update, throw.
    simpl. rewrite Hnone. destruct (db_mark_failed w) as [[]|e'];
      eexists; eexists; (split; [reflexivity|]); done. }
  destruct (db_mark_processing w) as [[]|e]; apply Hhandler.
Qed.

Lemma processJob_unknown_screen_witness :
  ∃ e s',
    processJob (D := example_digest)
      (example_world shot_a "<html></html>" (Ok tt) (Ok tt) (Ok tt))
      example_job (with_screens example_state ∅) = (Throw e, s')
    ∧ pages s' = [].
Proof.
  edestruct (processJob_unknown_screen (D := example_digest)
    (example_world shot_a "<html></html>" (Ok tt) (Ok tt) (Ok tt))
    example_job (with_screens example_state ∅))
    as (e & s' & Hrun & Hp & _); [reflexivity | by vm_compute |].
  by exists e, s'.
Defined.

(** ** The tables only grow *)

(** X9.  A job never alters or deletes a stored row: it leaves both tables as
    they were or puts new rows in front, at most one file row and, only
    together with it, at most one capture row; the new rows belong to the
    screen of the job. *)
Theorem processJob_appends_rows {D : Digest} (w : World) (job : CaptureJob)
  (s : St) (r : Res JobResult) (s' : St) :
  processJob w job s = (r, s') →
  ∃ new_files new_captures,
    screenFiles s' = new_files ++ screenFiles s
    ∧ captures s' = new_captures ++ captures s
    ∧ length new_captures ≤ length new_files ≤ 1
    ∧ Forall (λ f, file_screenId f = screenId job) new_files
    ∧ Forall (λ c, capture_screenId c = screenId job) new_captures.
Proof.
  intros Hrun.
  apply processJob_rows in Hrun
    as [(Hf & Hc & _) | (d & s1 & _ & [(Hf & Hc & _) | (Hf & Hc & _)])].
  - exists [], []. simpl. split_and!; auto.
  - exists [file_row job d (next_id s)], []. simpl. split_and!; auto.
  - eexists [_], [_]. split; [exact Hf|]. split; [exact Hc|].
    simpl. split_and!; auto.
Qed.

Lemma processJob_appends_rows_witness :
  ∃ new_files new_captures,
    screenFiles state_after_first = new_files ++ []
    ∧ captures state_after_first = new_captures ++ []
    ∧ length new_captures ≤ length new_files ≤ 1.
Proof.
  destruct (processJob_appends_rows (D := example_digest)
    (example_world shot_a "<html></html>" (Ok tt) (Ok tt) (Ok tt))
    example_job example_state _ _ (surjective_pairing _))
    as (nf & nc & Hf & Hc & Hlen & _).
  by exists nf, nc.
Defined.

(** ** What a successful job writes *)

Lemma extractText_Ok_inv (ocr : OcrReplies) (image : Buffer) (s s' : St)
  (text : string) :
  extractText ocr image s = (Ok text, s') →
  recognize ocr image = Ok text ∧ s' = s.
Proof.
  unfold extractText, bind, try_finally, ask.
  destruct (createWorker ocr) as [[]|]; [|done].
  destruct (terminate ocr) as [[]|]; [|done]. by intros [= -> <-].
Qed.

Lemma detectAndBlurPII_Ok_inv (ocr : OcrReplies) (image : Buffer)
  (s s' : St) (flag : bool) :
  detectAndBlurPII ocr image s = (Ok flag, s') →
  ∃ text, recognize ocr image = Ok text ∧ flag = hasPII text.
Proof.
  unfold detectAndBlurPII. intros H.
  apply bind_Ok_inv in H as (text & s1 & Ht & H).
  apply extractText_Ok_inv in Ht as [Ht _].
  apply bind_Ok_inv in H as ([] & s2 & _ & H). unfold ret in H.
  injection H as <- _. by exists text.
Qed.

Lemma cache_validator_Ok_inv (reply : Res (gmap string string))
  (name : string) (s s' : St) (v : option string) :
  try_catch (await response := ask reply in
             ret (header_or_null response name)) (λ _, ret None) s
  = (Ok v, s') →
  v = match reply with
      | Ok headers => header_or_null headers name
      | Throw _ => None
      end.
Proof.
  unfold try_catch, bind, ask, ret. destruct reply; by intros [= <- _].
Qed.

(** What the rendering hands to the database phase. *)
Lemma render_on_page_Ok_staged {D : Digest} (w : World) (job : CaptureJob)
  (page : nat) (s s' : St) (d : Staged) :
  render_on_page w job page s = (Ok d, s') →
  ∃ shot pii_text,
    page_screenshot w = Ok shot
    ∧ recognize (ocr_pii w) shot = Ok pii_text
    ∧ st_piiBlur d = hasPII pii_text
    ∧ st_aiTags d = generateAITags (url job) (st_ocrText d)
    ∧ (if withContent job
       then ∃ text, recognize (ocr_text w) shot = Ok text
                    ∧ st_ocrText d = Some text
       else st_ocrText d = None)
    ∧ st_etag d = match etag_response w with
                  | Ok headers => header_or_null headers "etag"
                  | Throw _ => None
                  end
    ∧ st_lastModified d
      = match lastModified_response w with
        | Ok headers => header_or_null headers "last-modified"
        | Throw _ => None
        end
    ∧ st_fileUrls d = expected_urls w job.
Proof.
  unfold render_on_page. intros H.
  apply bind_Ok_inv in H as ([] & s1 & _ & H).
  apply bind_Ok_inv in H as ([] & s2 & _ & H).
  apply bind_Ok_inv in H as ([] & s3 & _ & H).
  apply bind_Ok_inv in H as ([] & s4 & _ & H).
  apply bind_Ok_inv in H as ([] & s5 & _ & H).
  apply bind_Ok_inv in H as (shot & s6 & Hshot & H).
  apply ask_inv in Hshot as [Hshot _].
  apply bind_Ok_inv in H as (etag' & s7 & Hetag & H).
  apply cache_validator_Ok_inv in Hetag.
  apply bind_Ok_inv in H as (lastModified' & s8 & Hlm & H).
  apply cache_validator_Ok_inv in Hlm.
  apply bind_Ok_inv in H as (domHash' & s9 & _ & H).
  apply bind_Ok_inv in H as (images & s10 & Himages & H).
  apply processImage_Ok_inv in Himages as (Hpng & _ & _).
  apply bind_Ok_inv in H as (ocrText' & s11 & Hocr & H).
  apply bind_Ok_inv in H as (pii & s12 & Hpii & H).
  apply detectAndBlurPII_Ok_inv in Hpii as (pii_text & Hrec & ->).
  rewrite Hpng in Hrec.
  apply bind_Ok_inv in H as (fileUrls & s13 & Hup & H).
  rewrite uploadToS3_run in Hup.
  unfold ret in H. injection H as <- _. simpl.
  exists shot, pii_text. split_and!; try done.
  - destruct (withContent job).
    + apply bind_Ok_inv in Hocr as (text & s14 & Ht & Hocr).
      apply extractText_Ok_inv in Ht as [Ht _].
      unfold ret in Hocr. injection Hocr as <- _. by exists text.
    + unfold ret in Hocr. by injection Hocr as <- _.
  - repeat match type of Hup with
           | (match ?x with _ => _ end, _) = _ => destruct x as [[]|]
           end; congruence.
Qed.

Lemma persist_Ok_inv (w : World) (job : CaptureJob) (d : Staged)
  (s s' : St) (jr : JobResult) :
  persist w job d s = (Ok jr, s') →
  ∃ row, screens s !! screenId job = Some row
         ∧ screens s' = <[screenId job := captured_row w d row]> (screens s)
         ∧ screenFiles s' = file_row job d (next_id s) :: screenFiles s
         ∧ jr = {| success := true; result_screenId := screenId job;
                   captureId := S (next_id s); fileId := next_id s;
                   urls := st_fileUrls d |}.
Proof.
  unfold persist, bind at 1, screenFile_create.
  destruct (db_create_screenFile w) as [[]|]; [|done].
  unfold bind at 1. rewrite calculateDiffScore_run.
  destruct (db_find_capture w) as [[]|]; [|done].
  unfold bind at 1, capture_create.
  destruct (db_create_capture w) as [[]|]; [|done].
  unfold bind at 1, screen_update.
  destruct (db_mark_captured w) as [[]|]; [|done].
  simpl screens. destruct (screens s !! screenId job) as [row|]; [|done].
  unfold bind, closePage. destruct (page_close w) as [[]|]; [|done].
  unfold ret. intros [= <- <-]. by exists row.
Qed.

(** X7.  After a successful job the row of the screen is [captured] and holds
    what this job computed, replacing what it held: the recognized text,
    present only if the job asked for it; the tags of the URL and that
    text; the time of the write; and the PII flag, which comes from a
    recognition pass of its own that runs whether or not the job asked for
    text. *)
Theorem processJob_success_screen_row {D : Digest} (w : World)
  (job : CaptureJob) (s s' : St) (jr : JobResult) :
  processJob w job s = (Ok jr, s') →
  ∃ shot text pii_text,
    page_screenshot w = Ok shot
    ∧ recognize (ocr_pii w) shot = Ok pii_text
    ∧ (if withContent job
       then ∃ t, recognize (ocr_text w) shot = Ok t ∧ text = Some t
       else text = None)
    ∧ screens s' !! screenId job
      = Some {| status := captured; ocrText := text;
                aiTags := generateAITags (url job) text;
                piiBlur := hasPII pii_text;
                lastSeenAt := Some (clock_now w) |}.
Proof.
  intros Hrun. destruct (initialized s) eqn:Hinit.
  2:{ unfold processJob in Hrun. by rewrite Hinit in Hrun. }
  apply processJob_cases in Hrun; [|done].
  destruct Hrun as [(e & s1 & _ & _ & Hf) | [(d & s1 & e & s2 & _ & _ & _ & Hf)
                                            | (d & s1 & jr' & Hr & Hp & [= <-])]].
  - by apply on_failure_effect in Hf as (_ & [e' [=]] & _).
  - by apply on_failure_effect in Hf as (_ & [e' [=]] & _).
  - unfold render_and_upload in Hr.
    apply bind_Ok_inv in Hr as ([] & s2 & _ & Hr).
    apply bind_Ok_inv in Hr as (page & s3 & _ & Hr).
    apply render_on_page_Ok_staged in Hr
      as (shot & pii_text & Hshot & Hrec & Hpii & Htags & Hocr & _).
    apply persist_Ok_inv in Hp as (row & _ & -> & _).
    exists shot, (st_ocrText d), pii_text. split_and!; try done.
    rewrite lookup_insert_eq. unfold captured_row. by rewrite Htags, Hpii.
Qed.

Lemma processJob_success_screen_row_witness :
  ∃ row, screens state_after_first !! "screen-id" = Some row
         ∧ status row = captured ∧ ocrText row = Some "Apple Store"
         ∧ piiBlur row = false.
Proof.
  edestruct (processJob_success_screen_row (D := example_digest)
    (example_world shot_a "<html></html>" (Ok tt) (Ok tt) (Ok tt))
    example_job example_state) as (shot & text & pii & _ & Hpii & Ht & Hrow).
  { apply run_eq. vm_compute. reflexivity. }
  eexists. split; [exact Hrow|]. simpl in *. destruct Ht as (t & [= <-] & ->).
  injection Hpii as <-. by vm_compute.
Defined.

(** X6.  The file row of a successful job takes its three URLs from the object
    of [uploadToS3]: the thumbnail URL is always stored, but when the site
    id or the screen id contains [thumb] the row is created without WebP
    and PNG URLs, and when one of them contains [webp] the row has no PNG
    URL and its WebP URL is that of the PNG file. *)
Theorem processJob_success_file_urls {D : Digest} (w : World)
  (job : CaptureJob) (s s' : St) (jr : JobResult) :
  processJob w job s = (Ok jr, s') →
  ∃ f, screenFiles s' = f :: screenFiles s
       ∧ urls jr = expected_urls w job
       ∧ thumbUrl f = Some (cdn_url w job "thumb.webp")
       ∧ (ids_mention job "thumb" = true →
          webpUrl f = None ∧ pngUrl f = None)
       ∧ (ids_mention job "thumb" = false → ids_mention job "webp" = true →
          webpUrl f = Some (cdn_url w job "original.png") ∧ pngUrl f = None)
       ∧ (ids_mention job "thumb" = false → ids_mention job "webp" = false →
          webpUrl f = Some (cdn_url w job "original.webp")
          ∧ pngUrl f = Some (cdn_url w job "original.png")).
Proof.
  intros Hrun. destruct (initialized s) eqn:Hinit.
  2:{ unfold processJob in Hrun. by rewrite Hinit in Hrun. }
  apply processJob_cases in Hrun; [|done].
  destruct Hrun as [(e & s1 & _ & _ & Hf) | [(d & s1 & e & s2 & _ & _ & _ & Hf)
                                            | (d & s1 & jr' & Hr & Hp & [= <-])]].
  - by apply on_failure_effect in Hf as (_ & [e' [=]] & _).
  - by apply on_failure_effect in Hf as (_ & [e' [=]] & _).
  - pose proof Hr as Hr'.
    apply render_and_upload_effect in Hr' as (_ & Hfiles & _).
    unfold render_and_upload in Hr.
    apply bind_Ok_inv in Hr as ([] & s2 & _ & Hr).
    apply bind_Ok_inv in Hr as (page & s3 & _ & Hr).
    apply render_on_page_Ok_staged in Hr
      as (shot & pii_text & _ & _ & _ & _ & _ & _ & _ & Hurls).
    apply persist_Ok_inv in Hp as (row & _ & _ & Hf & ->).
    eexists. split; [by rewrite Hf, Hfiles|]. simpl. rewrite Hurls.
    unfold expected_urls.
    destruct (ids_mention job "thumb"), (ids_mention job "webp");
      split_and!; try done; by intros _ _.
Qed.

Lemma processJob_success_file_urls_witness :
  ∃ f, screenFiles state_after_first = [f]
       ∧ webpUrl f
         = Some "https://cdn.example.com/screenshots/site-id/screen-id/original.webp".
Proof.
  edestruct (processJob_success_file_urls (D := example_digest)
    (example_world shot_a "<html></html>" (Ok tt) (Ok tt) (Ok tt))
    example_job example_state) as (f & Hf & _ & _ & _ & _ & H).
  { apply run_eq. vm_compute. reflexivity. }
  exists f. split; [exact Hf|]. by apply H.
Defined.

(** ** What the PII scanner flags and what it cannot flag *)

(** A quantified class that must match at least once leaves one of its
    characters in the matched part. *)
Lemma items_match_member (items : list item) (before mid after : list ascii)
  (i : nat) (cls : ascii → bool) (lo : nat) (hi : option nat) :
  items_match items before mid after →
  items !! i = Some (Repeat cls (S lo) hi) →
  ∃ c, c ∈ mid ∧ cls c = true.
Proof.
  revert before mid i. induction items as [|it rest IH];
    intros before mid i Hm Hi; [done|].
  destruct Hm as (m1 & m2 & -> & Hit & Hrest). destruct i as [|i]; simpl in Hi.
  - injection Hi as ->. destruct Hit as (Hall & Hlo & _).
    destruct m1 as [|c m1]; [simpl in Hlo; lia|].
    exists c. split; [set_solver|]. by apply Forall_cons in Hall as [? _].
  - destruct (IH _ _ _ Hrest Hi) as (c & Hc & Hcls).
    exists c. split; [set_solver | done].
Qed.

(** X12.  A text without any digit and without [@] is never flagged. *)
Theorem hasPII_needs_digit_or_at (text : string) :
  (∀ c, c ∈ chars text → is_digit c = false ∧ c ≠ "@"%char) →
  hasPII text = false.
Proof.
  intros Hnone. apply not_true_is_false. intros H.
  apply hasPII_spec in H as (pattern & Hin & before & mid & after & Htext & Hm).
  assert (Hmid : ∀ c, c ∈ mid → is_digit c = false ∧ c ≠ "@"%char).
  { intros c Hc. apply Hnone. rewrite Htext. set_solver. }
  unfold piiPatterns in Hin.
  repeat (apply elem_of_cons in Hin as [-> | Hin]).
  - destruct (items_match_member _ _ _ _ 1 is_digit 2 (Some 3) Hm eq_refl)
      as (c & Hc & Hd). destruct (Hmid c Hc). congruence.
  - destruct (items_match_member _ _ _ _ 1 is_digit 3 (Some 4) Hm eq_refl)
      as (c & Hc & Hd). destruct (Hmid c Hc). congruence.
  - destruct (items_match_member _ _ _ _ 2 (is_char "@") 0 (Some 1) Hm eq_refl)
      as (c & Hc & Hd). destruct (Hmid c Hc) as [_ Hat].
    apply Ascii.eqb_eq in Hd. congruence.
  - destruct (items_match_member _ _ _ _ 1 is_digit 2 (Some 3) Hm eq_refl)
      as (c & Hc & Hd). destruct (Hmid c Hc). congruence.
  - by apply elem_of_nil in Hin.
Qed.

Lemma hasPII_needs_digit_or_at_witness :
  hasPII "Shop online. Get free delivery." = false.
Proof.
  apply hasPII_needs_digit_or_at. intros c Hc.
  apply list_elem_of_In in Hc. vm_compute in Hc.
  repeat (destruct Hc as [<- | Hc]; [by vm_compute|]). done.
Defined.

Lemma times_matches (n : nat) (cls : ascii → bool)
  (before m after : list ascii) :
  Forall (λ c, cls c = true) m → length m = n →
  item_matches (times n cls) before m after.
Proof.
  intros Hall Hlen. simpl. split_and!; [done | lia |].
  intros ? [= <-]. lia.
Qed.

Lemma optional_matches (cls : ascii → bool) (before m after : list ascii) :
  Forall (λ c, cls c = true) m → length m ≤ 1 →
  item_matches (optional cls) before m after.
Proof.
  intros Hall Hlen. simpl. split_and!; [done | lia |].
  by intros ? [= <-].
Qed.

Lemma digits_word (m : list ascii) :
  Forall (λ c, is_digit c = true) m → m ≠ [] →
  word_at (head m) = true ∧ word_at (last m) = true.
Proof.
  intros Hall Hne.
  assert (Hw : ∀ c, c ∈ m → is_word c = true).
  { intros c Hc. rewrite Forall_forall in Hall. unfold is_word.
    rewrite (Hall c Hc). by rewrite !orb_true_r. }
  split.
  - destruct m as [|c m]; [done|]. simpl. apply Hw. set_solver.
  - destruct m as [|c m] using rev_ind; [done|]. rewrite last_snoc. simpl.
    apply Hw. set_solver.
Qed.

(** X13.  A phone-shaped string in the text is flagged; so is, in particular,
    any run of exactly ten digits that stands alone. *)
Theorem hasPII_flags_phone_shapes (text : string) :
  phone_shaped_in text → hasPII text = true.
Proof.
  intros (pre & a & sep1 & b & sep2 & c & post & -> & Ha & Hda & Hb & Hdb
          & Hc & Hdc & Hs1 & Hds1 & Hs2 & Hds2 & Hpre & Hpost).
  rewrite <- length_chars in Ha, Hb, Hc, Hs1, Hs2.
  apply hasPII_spec. exists phone_pattern. split.
  { unfold piiPatterns. set_solver. }
  assert (Hna : chars a ≠ []) by (intros E; rewrite E in Ha; done).
  assert (Hnc : chars c ≠ []) by (intros E; rewrite E in Hc; done).
  destruct (digits_word _ Hda Hna) as [Hha _].
  destruct (digits_word _ Hdc Hnc) as [_ Hlc].
  exists (chars pre),
    (chars a ++ chars sep1 ++ chars b ++ chars sep2 ++ chars c),
    (chars post).
  split. { rewrite !chars_app. by rewrite <- !app_assoc. }
  unfold phone_pattern.
  exists [], (chars a ++ chars sep1 ++ chars b ++ chars sep2 ++ chars c).
  split; [done|]. split.
  { split; [done|]. rewrite <- app_assoc, head_app_nonempty by done.
    congruence. }
  exists (chars a), (chars sep1 ++ chars b ++ chars sep2 ++ chars c).
  split; [done|]. split; [by apply times_matches|].
  exists (chars sep1), (chars b ++ chars sep2 ++ chars c).
  split; [done|]. split; [by apply optional_matches|].
  exists (chars b), (chars sep2 ++ chars c).
  split; [done|]. split; [by apply times_matches|].
  exists (chars sep2), (chars c).
  split; [done|]. split; [by apply optional_matches|].
  exists (chars c), [].
  split; [by rewrite app_nil_r|]. split; [by apply times_matches|].
  exists [], []. split; [done|]. split; [|done].
  split; [done|]. simpl. rewrite last_app_nonempty by done.
  congruence.
Qed.

Lemma hasPII_flags_phone_shapes_witness :
  phone_shaped_in "Order 2024011500 shipped"
  ∧ hasPII "Order 2024011500 shipped" = true.
Proof.
  assert (H : phone_shaped_in "Order 2024011500 shipped").
  { exists "Order ", "202", "", "401", "", "1500", " shipped".
    split; [reflexivity|].
    split_and!; try done; try (by vm_compute; repeat constructor);
      simpl; lia. }
  split; [exact H|]. by apply hasPII_flags_phone_shapes.
Defined.

(** ** The tags as a selection from the vocabulary *)

(** [generateAITags] selects, in the order of the vocabulary, the labels
    whose keyword is hit. *)
Lemma generateAITags_filter (url : string) (ocrText : option string) :
  generateAITags url ocrText
  = snd <$>
      List.filter (λ kv, keyword_hit url (or_empty ocrText) kv.1) vocabulary.
Proof.
  unfold generateAITags, keyword_hit. simpl.
  destruct (includes _ "checkout" || includes _ "checkout");
    destruct (includes _ "payment" || includes _ "payment");
    destruct (includes _ "ticket" || includes _ "ticket");
    destruct (includes _ "event" || includes _ "event");
    destruct (includes _ "room" || includes _ "room"); reflexivity.
Qed.

Lemma filter_sublist_mono {A : Type} (P Q : A → bool) (l : list A) :
  (∀ x, x ∈ l → P x = true → Q x = true) →
  sublist (List.filter P l) (List.filter Q l).
Proof.
  intros HPQ. induction l as [|x l IH]; simpl; [constructor|].
  assert (IH' : sublist (List.filter P l) (List.filter Q l)).
  { apply IH. intros y Hy. apply HPQ. set_solver. }
  destruct (P x) eqn:HP.
  - rewrite (HPQ x) by (done || set_solver). by constructor.
  - destruct (Q x); [by constructor | done].
Qed.

(** X14.  The tags come out in one fixed order, that of the five rules, and the
    recognized text can only add tags: the tags of the URL alone are a
    sublist of the tags of the URL and any text, which are a sublist of
    [checkout; payment; ticket; event; accommodation]. *)
Theorem generateAITags_order (url : string) (ocrText : option string) :
  sublist (generateAITags url None) (generateAITags url ocrText)
  ∧ sublist (generateAITags url ocrText)
      ["checkout"; "payment"; "ticket"; "event"; "accommodation"].
Proof.
  rewrite !generateAITags_filter. split.
  - apply (fmap_sublist snd), filter_sublist_mono. intros [kw label] Hin.
    unfold keyword_hit. simpl. rewrite !orb_true_iff. intros [H | H].
    + by left.
    + exfalso. unfold vocabulary in Hin.
      repeat (apply elem_of_cons in Hin as [[= -> ->] | Hin];
              [by vm_compute in H|]).
      by apply elem_of_nil in Hin.
  - change ["checkout"; "payment"; "ticket"; "event"; "accommodation"]
      with (snd <$> List.filter (λ _, true) vocabulary).
    apply (fmap_sublist snd). by apply filter_sublist_mono.
Qed.

(** ** The version history of the screen-detail route *)

Lemma capturesWithDiffs_cons (c : Capture) (rows : list Capture) :
  capturesWithDiffs (c :: rows)
  = (c, hasChanged (head rows) c) :: capturesWithDiffs rows.
Proof.
  unfold capturesWithDiffs. rewrite imap_cons. f_equal.
  by destruct rows.
Qed.

Lemma head_screen_captures (key : string) (rows : list Capture) :
  head (screen_captures key rows) = latest_capture key rows.
Proof.
  unfold screen_captures, latest_capture.
  induction rows as [|c rows IH]; simpl; [done|].
  by destruct (String.eqb (capture_screenId c) key).
Qed.

(** X15.  In the history the route builds, a newer capture does not change the
    flag of the older ones, and the oldest capture of a screen is never
    reported as changed, whatever score is stored with it. *)
Theorem capturesWithDiffs_history (c : Capture) (rows : list Capture) :
  capturesWithDiffs (c :: rows)
  = (c, hasChanged (head rows) c) :: capturesWithDiffs rows
  ∧ ∀ oldest flag,
      last (capturesWithDiffs (c :: rows)) = Some (oldest, flag) →
      flag = false.
Proof.
  split; [apply capturesWithDiffs_cons|].
  revert c. induction rows as [|c' rows IH]; intros c oldest flag.
  - rewrite capturesWithDiffs_cons. simpl. by intros [= _ <-].
  - rewrite capturesWithDiffs_cons, last_cons.
    destruct (last (capturesWithDiffs (c' :: rows))) as [[o f]|] eqn:Hlast.
    + intros [= -> ->]. by apply (IH c' oldest).
    + rewrite capturesWithDiffs_cons in Hlast. by rewrite last_cons in Hlast;
        destruct (last (capturesWithDiffs rows)).
Qed.

(** X16.  After a successful job, the route lists the new capture first and
    reports it as changed exactly when the latest capture the screen had
    before the job has an image hash other than the MD5 of the new
    screenshot (older captures play no part); what it reports for the
    earlier captures of the screen is what it reported before the job. *)
Theorem route_reports_new_capture {D : Digest} (w : World) (job : CaptureJob)
  (s s' : St) (jr : JobResult) (shot : Buffer) :
  processJob w job s = (Ok jr, s') →
  page_screenshot w = Ok shot →
  ∃ c flag,
    capturesWithDiffs (screen_captures (screenId job) (captures s'))
    = (c, flag)
      :: capturesWithDiffs (screen_captures (screenId job) (captures s))
    ∧ capture_id c = captureId jr
    ∧ (flag = true
       ↔ ∃ previous,
           latest_capture (screenId job) (captures s) = Some previous
           ∧ imgHash previous ≠ md5_hex shot).
Proof.
  intros Hrun Hshot.
  apply processJob_Ok_rows in Hrun
    as (shot' & _ & _ & c & Hs & _ & _ & Hc & _ & Hid & _ & Hkey & _ & _ & _
        & _ & Hd & _).
  assert (shot' = shot) as -> by congruence.
  exists c, (hasChanged (latest_capture (screenId job) (captures s)) c).
  split_and!; [|done|].
  - rewrite Hc. unfold screen_captures at 1. simpl.
    rewrite Hkey, String.eqb_refl. fold (screen_captures (screenId job) (captures s)).
    by rewrite capturesWithDiffs_cons, head_screen_captures.
  - unfold hasChanged. rewrite Hd.
    destruct (latest_capture (screenId job) (captures s)) as [p|]; simpl.
    + destruct (String.eqb (imgHash p) (md5_hex shot)) eqn:Heq; simpl.
      * apply String.eqb_eq in Heq. split; [done|].
        by intros (? & [= <-] & ?).
      * apply String.eqb_neq in Heq. split; [|done]. intros _. by exists p.
    + split; [done | by intros (? & [=] & _)].
Qed.

Lemma route_reports_new_capture_witness :
  ∃ c older,
    capturesWithDiffs (screen_captures "screen-id" captures_after_resize)
    = (c, true) :: older.
Proof.
  edestruct (route_reports_new_capture (D := example_digest)
    (example_world shot_b "<html></html>" (Ok tt) (Ok tt) (Ok tt))
    example_job_mobile state_after_first) as (c & flag & Hh & _ & Hflag).
  { apply run_eq. vm_compute. reflexivity. }
  { reflexivity. }
  exists c. eexists. unfold captures_after_resize.
  change "screen-id" with (screenId example_job_mobile).
  rewrite Hh. do 2 f_equal. apply Hflag. eexists. split.
  - by vm_compute.
  - by vm_compute.
Defined.

Lemma capturesWithDiffs_history_witness :
  ∃ oldest,
    last (capturesWithDiffs (screen_captures "screen-id" captures_after_resize))
    = Some (oldest, false).
Proof.
  destruct (last (capturesWithDiffs
                    (screen_captures "screen-id" captures_after_resize)))
    as [[oldest flag]|] eqn:H; [|by vm_compute in H].
  exists oldest. f_equal. f_equal. revert H.
  destruct (screen_captures "screen-id" captures_after_resize) as [|c rows]
    eqn:E; [by vm_compute in E|].
  apply (proj2 (capturesWithDiffs_history c rows)).
Defined.

(** ** The allowlist of the capture route *)

Lemma remove_first_unfold (needle hay : list ascii) :
  remove_first needle hay
  = if starts_with needle hay then drop (length needle) hay
    else match hay with
         | [] => []
         | c :: rest => c :: remove_first needle rest
         end.
Proof. by destruct hay. Qed.

Lemma remove_first_at (needle a b : list ascii) (x : ascii) :
  head needle = Some x → x ∉ a →
  remove_first needle (a ++ needle ++ b) = a ++ b.
Proof.
  intros Hx Ha. induction a as [|c a IH].
  - simpl. rewrite remove_first_unfold.
    assert (Hs : starts_with needle (needle ++ b) = true).
    { apply starts_with_spec. by exists b. }
    by rewrite Hs, drop_app_length.
  - rewrite remove_first_unfold.
    assert (Hs : starts_with needle ((c :: a) ++ needle ++ b) = false).
    { destruct needle as [|y needle]; [done|]. injection Hx as ->. simpl.
      destruct (decide (x = c)); [set_solver | done]. }
    rewrite Hs. simpl. f_equal. apply IH. set_solver.
Qed.

Lemma remove_first_absent (needle hay : list ascii) (x : ascii) :
  head needle = Some x → x ∉ hay → remove_first needle hay = hay.
Proof.
  intros Hx Hhay. destruct needle as [|y needle]; [done|]. injection Hx as ->.
  induction hay as [|c hay IH]; [done|]. simpl.
  destruct (decide (x = c)); [set_solver|]. f_equal. apply IH. set_solver.
Qed.

(** What [replace] returns is the host name itself, or the host name with
    one occurrence of the needle taken out. *)
Lemma remove_first_cases (needle hay : list ascii) :
  remove_first needle hay = hay
  ∨ ∃ a b, hay = a ++ needle ++ b ∧ remove_first needle hay = a ++ b.
Proof.
  induction hay as [|c hay IH]; rewrite remove_first_unfold.
  - destruct (starts_with needle []) eqn:Hs; [|by left].
    apply starts_with_spec in Hs as [post Hs]. symmetry in Hs.
    apply app_eq_nil in Hs as [-> ->]. by left.
  - destruct (starts_with needle (c :: hay)) eqn:Hs.
    + apply starts_with_spec in Hs as [post Hs]. right. exists [], post.
      rewrite Hs. by rewrite drop_app_length.
    + destruct IH as [-> | (a & b & -> & ->)]; [by left|].
      right. by exists (c :: a), b.
Qed.

(** X17.  The capture route accepts exactly the host names that are one of the
    six allowed domains, either as it stands or with one [www.] inserted at
    any position: not only [www.apple.com] but also [apple.www.com]. *)
Theorem host_allowed_iff (hostname : string) :
  host_allowed hostname = true
  ↔ ∃ d, d ∈ ALLOWED_SITES
         ∧ (hostname = d
            ∨ ∃ a b, d = a +:+ b ∧ hostname = a +:+ "www." +:+ b).
Proof.
  unfold host_allowed. rewrite existsb_exists.
  assert (Hfree : ∀ d, d ∈ ALLOWED_SITES → "w"%char ∉ chars d).
  { intros d Hd. unfold ALLOWED_SITES in Hd.
    repeat (apply elem_of_cons in Hd as [-> | Hd];
            [by apply (bool_decide_unpack _); vm_compute|]).
    by apply elem_of_nil in Hd. }
  split.
  - intros (d & Hin & Heq). apply String.eqb_eq in Heq. subst d.
    apply list_elem_of_In in Hin. exists (capture_domain hostname).
    split; [done|]. unfold capture_domain.
    destruct (remove_first_cases (chars "www.") (chars hostname))
      as [-> | (a & b & Hh & ->)].
    + left. by rewrite of_chars_chars.
    + right. exists (of_chars a), (of_chars b). split.
      * by rewrite of_chars_app.
      * apply chars_inj. by rewrite !chars_app, !chars_of_chars.
  - intros (d & Hin & Hcase). exists d. split; [by apply list_elem_of_In|].
    apply String.eqb_eq. unfold capture_domain.
    specialize (Hfree d Hin). destruct Hcase as [-> | (a & b & -> & ->)].
    + rewrite (remove_first_absent _ _ "w"%char) by done.
      apply of_chars_chars.
    + rewrite chars_app in Hfree. rewrite !chars_app.
      rewrite (remove_first_at _ _ _ "w"%char) by (done || set_solver).
      by rewrite of_chars_app, !of_chars_chars.
Qed.

Lemma host_allowed_iff_witness :
  host_allowed "apple.www.com" = true.
Proof.
  apply host_allowed_iff. exists "apple.com". split.
  - unfold ALLOWED_SITES. set_solver.
  - right. by exists "apple.", "com".
Defined.

(** ** Error masking in the [catch] block *)

(** X11.  When the [try] block fails and the status write of the [catch] block
    throws too, [processJob] throws the error of that write, not the error
    of the failing stage, which survives only in the console line; the
    status of the page is left as the [try] block left it. *)
Theorem processJob_masks_error {D : Digest} (w : World) (job : CaptureJob)
  (s s1 : St) (e e2 : string) :
  initialized s = true →
  try_block w job s = (Throw e, s1) →
  db_mark_failed w = Throw e2 →
  ∃ s', processJob w job s = (Throw e2, s')
        ∧ console s'
          = ("Capture failed for " +:+ url job +:+ ": " +:+ e) :: console s1
        ∧ screens s' = screens s1.
Proof.
  intros Hinit Htry Hfailed.
  unfold processJob, try_catch. rewrite Hinit, Htry.
  unfold on_failure, bind, console_write, screen_update, throw. simpl.
  rewrite Hfailed. by eexists.
Qed.

Lemma processJob_masks_error_witness :
  ∃ s',
    processJob (D := example_digest)
      (example_world shot_a "<html></html>" goto_timeout (Ok tt)
         (Throw "Can't reach database server"))
      example_job example_state
    = (Throw "Can't reach database server", s')
    ∧ status_of s' "screen-id" = Some processing.
Proof.
  edestruct (processJob_masks_error (D := example_digest)
    (example_world shot_a "<html></html>" goto_timeout (Ok tt)
       (Throw "Can't reach database server"))
    example_job example_state) as (s' & Hrun & _ & Hs).
  - reflexivity.
  - apply run_eq. vm_compute. reflexivity.
  - reflexivity.
  - exists s'. split; [exact Hrun|]. unfold status_of. rewrite Hs.
    by vm_compute.
Defined.

(** ** The capture jobs of the search route *)

Lemma length_split_at (sep : ascii) (s : list ascii) :
  length (split_at sep s)
  = S (length (List.filter (λ c, bool_decide (c = sep)) s)).
Proof.
  induction s as [|c rest IH]; simpl; [done|].
  destruct (decide (c = sep)) as [->|Hne].
  - rewrite bool_decide_eq_true_2 by done. simpl. by rewrite IH.
  - rewrite bool_decide_eq_false_2 by done.
    destruct (split_at sep rest) as [|word words]; simpl in *; [done|].
    exact IH.
Qed.

Lemma lower_char_space (c : ascii) :
  bool_decide (lower_char c = " "%char) = bool_decide (c = " "%char).
Proof. by destruct c as [[] [] [] [] [] [] [] []]. Qed.

Lemma spaces_toLowerCase (s : string) : spaces (toLowerCase s) = spaces s.
Proof.
  unfold spaces. rewrite chars_toLowerCase.
  induction (chars s) as [|c l IH]; simpl; [done|].
  rewrite lower_char_space. destruct (bool_decide (c = " "%char)); simpl;
    by rewrite IH.
Qed.

(** X18.  The search route builds, for each site, as many jobs as the query has
    words between single spaces, but never more than three: one job for a
    query without space, two for one space, three from two spaces on. *)
Theorem enqueueCaptureJobs_count (query : string) (sites : list string) :
  length (enqueueCaptureJobs query sites)
  = length sites * Nat.min 3 (S (spaces query)).
Proof.
  assert (Hcount : url_count query = Nat.min 3 (S (spaces query))).
  { unfold url_count, split_spaces.
    rewrite length_fmap, length_split_at.
    fold (spaces (toLowerCase query)). rewrite spaces_toLowerCase. lia. }
  unfold enqueueCaptureJobs. rewrite Hcount.
  induction sites as [|site sites IH]; [done|].
  rewrite bind_cons, length_app, IH, length_fmap, length_seq. simpl. lia.
Qed.

(** X19.  For a query that mentions [checkout] or [payment], whatever else it
    says, all the jobs of a site carry the same URL, that of its checkout
    page: a query of several words enqueues the same capture several
    times. *)
Theorem enqueueCaptureJobs_checkout (query : string) (sites : list string) :
  includes (toLowerCase query) "checkout" = true
  ∨ includes (toLowerCase query) "payment" = true →
  enqueueCaptureJobs query sites
  = site ← sites;
    replicate (Nat.min 3 (S (spaces query)))
      {| search_url := "https://www." +:+ site +:+ "/checkout";
         search_site := site;
         search_breakpoints := [desktop; mobile];
         search_priority := 1 |}.
Proof.
  intros Hq.
  assert (Hpath : ∀ i, generatePathFromQuery query i = "/checkout").
  { intros i. unfold generatePathFromQuery.
    destruct Hq as [-> | ->]; by rewrite ?orb_true_r. }
  assert (Hcount : url_count query = Nat.min 3 (S (spaces query))).
  { unfold url_count, split_spaces.
    rewrite length_fmap, length_split_at.
    fold (spaces (toLowerCase query)). rewrite spaces_toLowerCase. lia. }
  unfold enqueueCaptureJobs. rewrite Hcount.
  induction sites as [|site sites IH]; [done|].
  rewrite !bind_cons, IH. f_equal.
  assert (Hrep : ∀ (f : nat → SearchJob) (x : SearchJob) n start,
            (∀ i, f i = x) → f <$> seq start n = replicate n x).
  { intros f x n. induction n as [|n IHn]; intros start Hf; [done|].
    simpl. by rewrite Hf, IHn. }
  apply Hrep. intros i. by rewrite Hpath.
Qed.

Lemma enqueueCaptureJobs_checkout_witness :
  length (enqueueCaptureJobs "checkout payment flow" ["stubhub.com"]) = 3
  ∧ ∀ j, j ∈ enqueueCaptureJobs "checkout payment flow" ["stubhub.com"] →
         search_url j = "https://www.stubhub.com/checkout".
Proof.
  rewrite enqueueCaptureJobs_checkout by (left; by vm_compute).
  split; [by vm_compute|]. intros j Hj. vm_compute in Hj.
  apply list_elem_of_In in Hj. simpl in Hj.
  by destruct Hj as [<- | [<- | [<- | []]]].
Defined.

(** ** The PII scanner, shape by shape *)

Lemma one_matches_inv (x : ascii) (before m after : list ascii) :
  item_matches (one (is_char x)) before m after → m = [x].
Proof.
  intros (Hall & Hlo & Hhi). specialize (Hhi 1 eq_refl).
  destruct m as [|c [|c' m]]; simpl in *; [lia | | lia].
  apply Forall_cons in Hall as [Hc _]. apply Ascii.eqb_eq in Hc. by subst.
Qed.

Lemma times_matches_inv (n : nat) (cls : ascii → bool)
  (before m after : list ascii) :
  item_matches (times n cls) before m after →
  Forall (λ c, cls c = true) m ∧ length m = n.
Proof.
  intros (Hall & Hlo & Hhi). specialize (Hhi n eq_refl). split; [done | lia].
Qed.

Lemma optional_matches_inv (cls : ascii → bool)
  (before m after : list ascii) :
  item_matches (optional cls) before m after →
  Forall (λ c, cls c = true) m ∧ length m ≤ 1.
Proof. intros (Hall & _ & Hhi). split; [done | by apply Hhi]. Qed.

Lemma at_least_matches_inv (n : nat) (cls : ascii → bool)
  (before m after : list ascii) :
  item_matches (at_least n cls) before m after →
  Forall (λ c, cls c = true) m ∧ n ≤ length m.
Proof. by intros (Hall & Hlo & _). Qed.

Lemma all_in_of_chars (cls : ascii → bool) (m : list ascii) :
  all_in cls (of_chars m) ↔ Forall (λ c, cls c = true) m.
Proof. unfold all_in. by rewrite chars_of_chars. Qed.

Lemma length_of_chars (m : list ascii) :
  String.length (of_chars m) = length m.
Proof. by rewrite <- length_chars, chars_of_chars. Qed.

Lemma of_chars_nonempty (m : list ascii) : m ≠ [] → of_chars m ≠ "".
Proof. by destruct m. Qed.

Lemma not_word_before (x : option ascii) (m rest : list ascii) :
  Forall (λ c, is_digit c = true) m → m ≠ [] →
  word_at x ≠ word_at (head (m ++ rest)) → word_at x = false.
Proof.
  intros Hall Hne H. rewrite head_app_nonempty in H by done.
  destruct (digits_word m Hall Hne) as [Hh _]. rewrite Hh in H.
  by destruct (word_at x).
Qed.

Lemma not_word_after (l m : list ascii) (x : option ascii) :
  Forall (λ c, is_digit c = true) m → m ≠ [] →
  word_at (last (l ++ m)) ≠ word_at x → word_at x = false.
Proof.
  intros Hall Hne H. rewrite last_app_nonempty in H by done.
  destruct (digits_word m Hall Hne) as [_ Hl]. rewrite Hl in H.
  by destruct (word_at x).
Qed.

Lemma nonempty_length {A : Type} (m : list A) (n : nat) :
  length m = S n → m ≠ [].
Proof. by destruct m. Qed.

(** Takes the next item off a match. *)
Ltac next_item Hm m H :=
  let r := fresh "r" in
  destruct Hm as (m & r & -> & H & Hm).

(** Gives the next item its part of the text. *)
Ltac give_item m rest tac :=
  exists m, rest; split; [done|]; split; [tac|].

Lemma ssn_pattern_iff (text : string) :
  pattern_matches ssn_pattern text ↔ ssn_shaped_in text.
Proof.
  split.
  - intros (before & mid & after & Htext & Hm). unfold ssn_pattern in Hm.
    next_item Hm m0 H0. next_item Hm a Ha. next_item Hm h1 Hh1.
    next_item Hm b Hb. next_item Hm h2 Hh2. next_item Hm c Hc.
    next_item Hm m6 H6. simpl in Hm. subst.
    destruct H0 as [-> H0], H6 as [-> H6].
    apply one_matches_inv in Hh1 as ->. apply one_matches_inv in Hh2 as ->.
    apply times_matches_inv in Ha as [Hda Hla].
    apply times_matches_inv in Hb as [Hdb Hlb].
    apply times_matches_inv in Hc as [Hdc Hlc].
    simpl in H0, H6. rewrite app_nil_r in H6. rewrite <- app_assoc in H0.
    apply not_word_before in H0; [|done | by eapply nonempty_length].
    apply not_word_after in H6; [|done | by eapply nonempty_length].
    exists (of_chars before), (of_chars a), (of_chars b), (of_chars c),
      (of_chars after).
    rewrite !all_in_of_chars, !length_of_chars, !chars_of_chars.
    split_and!; try done.
    apply chars_inj. rewrite !chars_app, !chars_of_chars, Htext.
    change (chars "-") with ["-"%char]. simpl.
    rewrite ?app_nil_r, <- ?app_assoc. simpl. by rewrite <- ?app_assoc.
  - intros (pre & a & b & c & post & -> & Hla & Hda & Hlb & Hdb & Hlc & Hdc
            & Hpre & Hpost).
    rewrite <- length_chars in Hla, Hlb, Hlc.
    assert (Hna : chars a ≠ []) by by eapply nonempty_length.
    assert (Hnc : chars c ≠ []) by by eapply nonempty_length.
    destruct (digits_word _ Hda Hna) as [Hha _].
    destruct (digits_word _ Hdc Hnc) as [_ Hlc'].
    exists (chars pre),
      (chars a ++ ["-"%char] ++ chars b ++ ["-"%char] ++ chars c),
      (chars post).
    split. { rewrite !chars_app. by rewrite <- !app_assoc. }
    unfold ssn_pattern.
    give_item (@nil ascii)
      (chars a ++ ["-"%char] ++ chars b ++ ["-"%char] ++ chars c)
      ltac:(split; [done|];
            rewrite <- app_assoc, head_app_nonempty by done; congruence).
    give_item (chars a) (["-"%char] ++ chars b ++ ["-"%char] ++ chars c)
      ltac:(by apply times_matches).
    give_item ["-"%char] (chars b ++ ["-"%char] ++ chars c)
      ltac:(apply one_matches).
    give_item (chars b) (["-"%char] ++ chars c) ltac:(by apply times_matches).
    give_item ["-"%char] (chars c) ltac:(apply one_matches).
    exists (chars c), []. split; [by rewrite app_nil_r|].
    split; [by apply times_matches|].
    exists [], []. split; [done|]. split; [|done].
    split; [done|]. simpl. rewrite last_app_nonempty by done. congruence.
Qed.

Lemma phone_pattern_iff (text : string) :
  pattern_matches phone_pattern text ↔ phone_shaped_in text.
Proof.
  split.
  - intros (before & mid & after & Htext & Hm). unfold phone_pattern in Hm.
    next_item Hm m0 H0. next_item Hm a Ha. next_item Hm s1 Hs1.
    next_item Hm b Hb. next_item Hm s2 Hs2. next_item Hm c Hc.
    next_item Hm m6 H6. simpl in Hm. subst.
    destruct H0 as [-> H0], H6 as [-> H6].
    apply optional_matches_inv in Hs1 as [Hds1 Hls1].
    apply optional_matches_inv in Hs2 as [Hds2 Hls2].
    apply times_matches_inv in Ha as [Hda Hla].
    apply times_matches_inv in Hb as [Hdb Hlb].
    apply times_matches_inv in Hc as [Hdc Hlc].
    simpl in H0, H6. rewrite app_nil_r in H6. rewrite <- app_assoc in H0.
    apply not_word_before in H0; [|done | by eapply nonempty_length].
    apply not_word_after in H6; [|done | by eapply nonempty_length].
    exists (of_chars before), (of_chars a), (of_chars s1), (of_chars b),
      (of_chars s2), (of_chars c), (of_chars after).
    rewrite !all_in_of_chars, !length_of_chars, !chars_of_chars.
    split_and!; try done.
    apply chars_inj. rewrite !chars_app, !chars_of_chars, Htext. simpl.
    rewrite ?app_nil_r, <- ?app_assoc. simpl. by rewrite <- ?app_assoc.
  - intros (pre & a & sep1 & b & sep2 & c & post & -> & Ha & Hda & Hb & Hdb
            & Hc & Hdc & Hs1 & Hds1 & Hs2 & Hds2 & Hpre & Hpost).
    rewrite <- length_chars in Ha, Hb, Hc, Hs1, Hs2.
    assert (Hna : chars a ≠ []) by by eapply nonempty_length.
    assert (Hnc : chars c ≠ []) by by eapply nonempty_length.
    destruct (digits_word _ Hda Hna) as [Hha _].
    destruct (digits_word _ Hdc Hnc) as [_ Hlc].
    exists (chars pre),
      (chars a ++ chars sep1 ++ chars b ++ chars sep2 ++ chars c),
      (chars post).
    split. { rewrite !chars_app. by rewrite <- !app_assoc. }
    unfold phone_pattern.
    give_item (@nil ascii)
      (chars a ++ chars sep1 ++ chars b ++ chars sep2 ++ chars c)
      ltac:(split; [done|];
            rewrite <- app_assoc, head_app_nonempty by done; congruence).
    give_item (chars a) (chars sep1 ++ chars b ++ chars sep2 ++ chars c)
      ltac:(by apply times_matches).
    give_item (chars sep1) (chars b ++ chars sep2 ++ chars c)
      ltac:(by apply optional_matches).
    give_item (chars b) (chars sep2 ++ chars c) ltac:(by apply times_matches).
    give_item (chars sep2) (chars c) ltac:(by apply optional_matches).
    exists (chars c), []. split; [by rewrite app_nil_r|].
    split; [by apply times_matches|].
    exists [], []. split; [done|]. split; [|done].
    split; [done|]. simpl. rewrite last_app_nonempty by done. congruence.
Qed.

Lemma card_pattern_iff (text : string) :
  pattern_matches card_pattern text ↔ card_shaped_in text.
Proof.
  split.
  - intros (before & mid & after & Htext & Hm). unfold card_pattern in Hm.
    next_item Hm m0 H0. next_item Hm a Ha. next_item Hm s1 Hs1.
    next_item Hm b Hb. next_item Hm s2 Hs2. next_item Hm c Hc.
    next_item Hm s3 Hs3. next_item Hm d Hd.
    next_item Hm m8 H8. simpl in Hm. subst.
    destruct H0 as [-> H0], H8 as [-> H8].
    apply optional_matches_inv in Hs1 as [Hds1 Hls1].
    apply optional_matches_inv in Hs2 as [Hds2 Hls2].
    apply optional_matches_inv in Hs3 as [Hds3 Hls3].
    apply times_matches_inv in Ha as [Hda Hla].
    apply times_matches_inv in Hb as [Hdb Hlb].
    apply times_matches_inv in Hc as [Hdc Hlc].
    apply times_matches_inv in Hd as [Hdd Hld].
    simpl in H0, H8. rewrite app_nil_r in H8. rewrite <- app_assoc in H0.
    apply not_word_before in H0; [|done | by eapply nonempty_length].
    apply not_word_after in H8; [|done | by eapply nonempty_length].
    exists (of_chars before), (of_chars a), (of_chars s1), (of_chars b),
      (of_chars s2), (of_chars c), (of_chars s3), (of_chars d),
      (of_chars after).
    rewrite !all_in_of_chars, !length_of_chars, !chars_of_chars.
    split_and!; try done.
    apply chars_inj. rewrite !chars_app, !chars_of_chars, Htext. simpl.
    rewrite ?app_nil_r, <- ?app_assoc. simpl. by rewrite <- ?app_assoc.
  - intros (pre & a & sep1 & b & sep2 & c & sep3 & d & post & -> & Ha & Hda
            & Hb & Hdb & Hc & Hdc & Hd & Hdd & Hs1 & Hds1 & Hs2 & Hds2
            & Hs3 & Hds3 & Hpre & Hpost).
    rewrite <- length_chars in Ha, Hb, Hc, Hd, Hs1, Hs2, Hs3.
    assert (Hna : chars a ≠ []) by by eapply nonempty_length.
    assert (Hnd : chars d ≠ []) by by eapply nonempty_length.
    destruct (digits_word _ Hda Hna) as [Hha _].
    destruct (digits_word _ Hdd Hnd) as [_ Hld].
    exists (chars pre),
      (chars a ++ chars sep1 ++ chars b ++ chars sep2 ++ chars c
       ++ chars sep3 ++ chars d),
      (chars post).
    split. { rewrite !chars_app. by rewrite <- !app_assoc. }
    unfold card_pattern.
    give_item (@nil ascii)
      (chars a ++ chars sep1 ++ chars b ++ chars sep2 ++ chars c
       ++ chars sep3 ++ chars d)
      ltac:(split; [done|];
            rewrite <- app_assoc, head_app_nonempty by done; congruence).
    give_item (chars a)
      (chars sep1 ++ chars b ++ chars sep2 ++ chars c ++ chars sep3 ++ chars d)
      ltac:(by apply times_matches).
    give_item (chars sep1)
      (chars b ++ chars sep2 ++ chars c ++ chars sep3 ++ chars d)
      ltac:(by apply optional_matches).
    give_item (chars b) (chars sep2 ++ chars c ++ chars sep3 ++ chars d)
      ltac:(by apply times_matches).
    give_item (chars sep2) (chars c ++ chars sep3 ++ chars d)
      ltac:(by apply optional_matches).
    give_item (chars c) (chars sep3 ++ chars d) ltac:(by apply times_matches).
    give_item (chars sep3) (chars d) ltac:(by apply optional_matches).
    exists (chars d), []. split; [by rewrite app_nil_r|].
    split; [by apply times_matches|].
    exists [], []. split; [done|]. split; [|done].
    split; [done|]. simpl. rewrite last_app_nonempty by done. congruence.
Qed.

Lemma email_pattern_iff (text : string) :
  pattern_matches email_pattern text ↔ email_shaped_in text.
Proof.
  split; [|apply email_shaped_matches].
  intros (before & mid & after & Htext & Hm). unfold email_pattern in Hm.
  next_item Hm m0 H0. next_item Hm loc Hloc. next_item Hm at' Hat.
  next_item Hm dmn Hdmn. next_item Hm dot Hdot. next_item Hm tld Htld.
  next_item Hm m6 H6. simpl in Hm. subst.
  destruct H0 as [-> H0], H6 as [-> H6].
  apply one_matches_inv in Hat as ->. apply one_matches_inv in Hdot as ->.
  apply at_least_matches_inv in Hloc as [Hdloc Hlloc].
  apply at_least_matches_inv in Hdmn as [Hddmn Hldmn].
  apply at_least_matches_inv in Htld as [Hdtld Hltld].
  assert (Hnloc : loc ≠ []) by (destruct loc; [simpl in *; lia | done]).
  assert (Hndmn : dmn ≠ []) by (destruct dmn; [simpl in *; lia | done]).
  assert (Hntld : tld ≠ []) by (destruct tld; [simpl in *; lia | done]).
  simpl in H0, H6. rewrite app_nil_r in H6. rewrite <- app_assoc in H0.
  rewrite head_app_nonempty in H0 by done.
  rewrite last_app_nonempty in H6 by done.
  exists (of_chars before), (of_chars loc), (of_chars dmn), (of_chars tld),
    (of_chars after).
  rewrite !all_in_of_chars, !length_of_chars, !chars_of_chars.
  split_and!; try done; try (by apply of_chars_nonempty).
  apply chars_inj. rewrite !chars_app, !chars_of_chars, Htext.
  change (chars "@") with ["@"%char]. change (chars ".") with ["."%char].
  simpl. rewrite ?app_nil_r, <- ?app_assoc. simpl. by rewrite <- ?app_assoc.
Qed.

(** The scanner flags exactly the texts that hold one of the four shapes. *)
Lemma hasPII_shapes (text : string) :
  hasPII text = true
  ↔ ssn_shaped_in text ∨ card_shaped_in text ∨ email_shaped_in text
    ∨ phone_shaped_in text.
Proof.
  rewrite hasPII_spec, <- ssn_pattern_iff, <- card_pattern_iff,
    <- email_pattern_iff, <- phone_pattern_iff.
  unfold piiPatterns. split.
  - intros (p & Hin & Hm).
    repeat (apply elem_of_cons in Hin as [-> | Hin]; [tauto|]).
    by apply elem_of_nil in Hin.
  - intros [H | [H | [H | H]]]; eexists; (split; [|exact H]); set_solver.
Qed.

(** C9, as amended.  On the text that the recognition returns,
    [detectAndBlurPII] answers true exactly when the text holds a
    national-ID-shaped, a payment-card-shaped, an email-shaped or a
    phone-shaped string that stands as a word of its own, which is exactly
    when one of its four patterns matches some part of the text; in
    particular it answers true when the text holds an email-shaped string
    with a word boundary before its local part and after its top-level
    part. *)
Theorem detectAndBlurPII_flags_patterns (ocr : OcrReplies) (image : Buffer)
  (s s1 : St) (text : string) :
  extractText ocr image s = (Ok text, s1) →
  ∃ flag s',
    detectAndBlurPII ocr image s = (Ok flag, s')
    ∧ (flag = true
       ↔ ssn_shaped_in text ∨ card_shaped_in text ∨ email_shaped_in text
         ∨ phone_shaped_in text)
    ∧ (flag = true
       ↔ ∃ pattern, pattern ∈ piiPatterns ∧ pattern_matches pattern text)
    ∧ (email_shaped_in text → flag = true).
Proof.
  intros H. destruct (detectAndBlurPII_run _ _ _ _ _ H) as [s' Hrun].
  exists (hasPII text), s'. split; [done|]. split; [apply hasPII_shapes|].
  split; [apply hasPII_spec|].
  intros Hemail. apply hasPII_shapes. tauto.
Qed.

Lemma detectAndBlurPII_flags_patterns_witness :
  email_shaped_in "Contact: john.doe@example.com"
  ∧ ∃ s', detectAndBlurPII (ocr_ok "Contact: john.doe@example.com")
            shot_a example_state = (Ok true, s').
Proof.
  assert (Hshape : email_shaped_in "Contact: john.doe@example.com").
  { exists "Contact: ", "john.doe", "example", "com", "".
    split; [reflexivity|]. split; [done|]. split; [by vm_compute; repeat constructor|].
    split; [done|]. split; [by vm_compute; repeat constructor|].
    split; [simpl; lia|]. split; [by vm_compute; repeat constructor|].
    split; by vm_compute. }
  split; [exact Hshape|].
  destruct (detectAndBlurPII_flags_patterns
              (ocr_ok "Contact: john.doe@example.com") shot_a example_state
              example_state "Contact: john.doe@example.com" eq_refl)
    as (flag & s' & Hrun & _ & _ & Hflag).
  exists s'. by rewrite (Hflag Hshape) in Hrun.
Defined.

(** C9, as stated, fails: the text below contains the email-shaped string
    [john.doe@example.com], but a digit follows it without a word boundary,
    no pattern matches, and the scanner answers false. *)
Lemma email_shape_not_flagged :
  contains_email_shape "mail john.doe@example.com1 now"
  ∧ hasPII "mail john.doe@example.com1 now" = false
  ∧ detectAndBlurPII (ocr_ok "mail john.doe@example.com1 now") shot_a
      example_state
    = (Ok false, example_state).
Proof.
  split; [|split; [by vm_compute | by vm_compute]].
  exists "mail ", "john.doe@example.com", "1 now". split; [reflexivity|].
  exists "john.doe", "example", "com". split; [reflexivity|].
  split; [done|]. split; [by vm_compute; repeat constructor|].
  split; [done|]. split; [by vm_compute; repeat constructor|].
  split; [simpl; lia|]. by vm_compute; repeat constructor.
Qed.
